(** * Tabulation helpers of webscraping-parliament.py

    A shallow embedding of the three report helpers [count_member],
    [cross_count_member] and [cross_distinct_key], and the properties
    their report code relies on.

    Modelling choices, all taken from the Python source:
    - a record (one scraped member) is a Python [dict] from field names to
      strings that is only ever read: a [gmap string string];
    - [dictionary[key]] raises [KeyError] on a missing key: the helpers
      live in an error monad [res];
    - the returned dictionaries are iterated by the report code, and a
      Python [dict] iterates in insertion order: they are association
      lists whose order is the iteration order, written to with [setitem];
    - a Python [set] has no specified iteration order: a [gset string],
      read back through [elements];
    - a [string] holds the UTF-8 text of a Python [str]; strings compare
      by code point, which on UTF-8 text is the byte order [String.ltb];
      [sorted] is a stable sort;
    - counters are Python integers that start at 0 and are only
      incremented: [nat]. *)

From Stdlib Require Import Ascii OrderedTypeEx.
From stdpp Require Import gmap strings list sorting.

(** ** Exceptions *)

Inductive exn : Type :=
  | KeyError (key : string).

Inductive res (A : Type) : Type :=
  | Ok (a : A)
  | Raise (e : exn).
Arguments Ok {A} a.
Arguments Raise {A} e.

#[global] Instance res_ret : MRet res := λ A a, Ok a.
#[global] Instance res_bind : MBind res := λ A B f m,
  match m with
  | Ok a => f a
  | Raise e => Raise e
  end.

(** [for x in xs: s = body s x], stopping at the first exception. *)
Fixpoint for_each {A S : Type} (xs : list A) (s : S) (body : S → A → res S)
    : res S :=
  match xs with
  | [] => Ok s
  | x :: xs' => s' ← body s x; for_each xs' s' body
  end.

(** [list(f(x) for x in xs)] *)
Fixpoint list_comp {A B : Type} (f : A → res B) (xs : list A) : res (list B) :=
  match xs with
  | [] => Ok []
  | x :: xs' => y ← f x; ys ← list_comp f xs'; Ok (y :: ys)
  end.

(** ** Records and insertion-ordered dictionaries *)

Abbreviation record := (gmap string string) (only parsing).

(** [dictionary[key]] *)
Definition getitem (dictionary : record) (key : string) : res string :=
  match dictionary !! key with
  | Some v => Ok v
  | None => Raise (KeyError key)
  end.

Abbreviation pydict V := (list (string * V)) (only parsing).

(** [d[k] = v]: an existing key keeps its place, a new one goes last. *)
Fixpoint setitem {V : Type} (d : pydict V) (k : string) (v : V) : pydict V :=
  match d with
  | [] => [(k, v)]
  | (k', v') :: d' =>
      if decide (k' = k) then (k', v) :: d' else (k', v') :: setitem d' k v
  end.

(** [dict(pairs)] *)
Definition dict {V : Type} (pairs : list (string * V)) : pydict V :=
  foldl (λ d kv, setitem d kv.1 kv.2) [] pairs.

(** [d[k]] on a result dictionary, for reading the results back. *)
Fixpoint dict_get {V : Type} (d : pydict V) (k : string) : option V :=
  match d with
  | [] => None
  | (k', v') :: d' => if decide (k' = k) then Some v' else dict_get d' k
  end.

Definition keys {V : Type} (d : pydict V) : list string := d.*1.
Definition values {V : Type} (d : pydict V) : list V := d.*2.

(** ** Sorting *)

(** [sorted] is stable: of two elements neither of which is less than the
    other, the one that came first stays first.  [lt] is the comparison
    Python applies ([<] on the elements, or on their sort keys). *)
Fixpoint sort_insert {A : Type} (lt : A → A → bool) (x : A) (l : list A)
    : list A :=
  match l with
  | [] => [x]
  | y :: l' => if lt y x then y :: sort_insert lt x l' else x :: y :: l'
  end.

Definition sorted_by {A : Type} (lt : A → A → bool) (l : list A) : list A :=
  foldr (sort_insert lt) [] l.

(** [sorted(xs)] on strings *)
Definition sorted (xs : list string) : list string := sorted_by String.ltb xs.

(** [sorted(d.items(), key=lambda x: x[1], reverse=True)]: [reverse=True]
    flips the comparison and keeps the sort stable. *)
Definition sorted_by_count_desc (items : list (string * nat))
    : list (string * nat) :=
  sorted_by (λ a b, b.2 <? a.2) items.

(** [sorted(set(list(dictionary[key] for dictionary in dict_list)))] *)
Definition unique_sorted (key : string) (dict_list : list record)
    : res (list string) :=
  vals ← list_comp (λ dictionary, getitem dictionary key) dict_list;
  Ok (sorted (elements (list_to_set vals : gset string))).

(** ** The three helpers *)

Definition count_member (key : string) (dict_list : list record)
    (sort_keys : bool) : res (pydict nat) :=
  unique_values ← unique_sorted key dict_list;
  results ← for_each unique_values [] (λ results unique_value,
    count ← for_each dict_list 0 (λ count dictionary,
      v ← getitem dictionary key;
      Ok (if decide (v = unique_value) then count + 1 else count));
    Ok (setitem results unique_value count));
  if sort_keys then Ok results
  else Ok (dict (sorted_by_count_desc results)).

(** The test of line 60: [and] evaluates [dictionary[key1]] only when the
    comparison on [key2] succeeded. *)
Definition cross_match (key1 key2 : string) (unique_value_1 unique_value_2 : string)
    (dictionary : record) : res bool :=
  v2 ← getitem dictionary key2;
  if decide (v2 = unique_value_2) then
    v1 ← getitem dictionary key1;
    Ok (bool_decide (v1 = unique_value_1))
  else Ok false.

(** The inner loop re-sorts [cross_count] and stores it under
    [results[unique_value_1]] after every secondary value.  With the
    default flag the stored dictionary is the one object that later
    iterations extend; as each iteration ends by storing it again, the
    store always holds its current contents, which is what the pair
    [(cross_count, results)] carries. *)
Definition cross_count_member (key1 key2 : string) (dict_list : list record)
    (sort_keys : bool) : res (pydict (pydict nat)) :=
  unique_values_1 ← unique_sorted key1 dict_list;
  unique_values_2 ← unique_sorted key2 dict_list;
  for_each unique_values_1 [] (λ results unique_value_1,
    st ← for_each unique_values_2 ([], results) (λ st unique_value_2,
      count ← for_each dict_list 0 (λ count dictionary,
        b ← cross_match key1 key2 unique_value_1 unique_value_2 dictionary;
        Ok (if b : bool then count + 1 else count));
      let cross_count :=
        if 0 <? count then setitem st.1 unique_value_2 count else st.1 in
      let cross_count :=
        if negb sort_keys then dict (sorted_by_count_desc cross_count)
        else cross_count in
      Ok (cross_count, setitem st.2 unique_value_1 cross_count));
    Ok st.2).

Definition cross_distinct_key (key1 key2 : string) (dict_list : list record)
    : res (pydict (list string)) :=
  unique_values_1 ← unique_sorted key1 dict_list;
  for_each unique_values_1 [] (λ results unique_value_1,
    distinct_key2 ← for_each dict_list (∅ : gset string) (λ distinct_key2 dictionary,
      v1 ← getitem dictionary key1;
      if decide (v1 = unique_value_1) then
        v2 ← getitem dictionary key2;
        Ok ({[ v2 ]} ∪ distinct_key2)
      else Ok distinct_key2);
    Ok (setitem results unique_value_1 (sorted (elements distinct_key2)))).

(** ** Vocabulary of the properties *)

(** Every record has the field. *)
Definition has_field (key : string) (dictionary : record) : Prop :=
  is_Some (dictionary !! key).

(** The number of records whose [key] field is [v]. *)
Definition occurrences (key v : string) (dict_list : list record) : nat :=
  length (filter (λ d : record, d !! key = Some v) dict_list).

(** The number of records whose [key1] field is [v1] and whose [key2] field
    is [v2]. *)
Definition cooccurrences (key1 key2 v1 v2 : string) (dict_list : list record)
    : nat :=
  length (filter (λ d : record, d !! key1 = Some v1 ∧ d !! key2 = Some v2)
            dict_list).

(** [v] is the [key] field of some record. *)
Definition observed (key v : string) (dict_list : list record) : Prop :=
  ∃ d : record, d ∈ dict_list ∧ d !! key = Some v.

(** Strings in strictly ascending order, and counts in non-increasing
    order. *)
Definition ascending (l : list string) : Prop :=
  StronglySorted (λ a b, String.ltb a b = true) l.
Definition non_increasing (l : list nat) : Prop :=
  StronglySorted (λ a b, b ≤ a) l.

(** *** The loop bodies when no lookup can fail

    [cross_count_step] is one round of the loop over the secondary values
    (lines 57 to 65), given the count [f unique_value_2] that the innermost
    loop returns; [distinct_step] is one round of the loop of lines 82 to
    84.  The lemmas below show that the monadic loops compute exactly
    these folds when every record has both fields. *)
Definition cross_count_step (sort_keys : bool) (f : string → nat)
    (cross_count : pydict nat) (unique_value_2 : string) : pydict nat :=
  let cross_count :=
    if 0 <? f unique_value_2
    then setitem cross_count unique_value_2 (f unique_value_2)
    else cross_count in
  if negb sort_keys then dict (sorted_by_count_desc cross_count)
  else cross_count.

Definition distinct_step (key1 key2 unique_value_1 : string)
    (distinct_key2 : gset string) (dictionary : record) : gset string :=
  if decide (dictionary !! key1 = Some unique_value_1) then
    match dictionary !! key2 with
    | Some v2 => {[ v2 ]} ∪ distinct_key2
    | None => distinct_key2
    end
  else distinct_key2.

(** The secondary values that occur with a primary value, with their
    counts, in the order of [uvs2]. *)
Definition cross_row (f : string → nat) (uvs2 : list string) : pydict nat :=
  filter (λ kv : string * nat, 0 < kv.2) ((λ uv2, (uv2, f uv2)) <$> uvs2).

(** A small collection of records for the examples below. *)
Definition member (party province : string) : record :=
  <["party" := party]> (<["province" := province]> ∅).
Definition example_members : list record :=
  [member "A" "ON"; member "A" "ON"; member "B" "QC"].

(** ** The script: scraping and the worksheet (lines 106 to 200)

    What BeautifulSoup, requests, openpyxl and docx do is not modelled.  A
    [tile] holds the strings the script reads out of one
    [a.ce-mip-mp-tile] element; a worksheet column is the list of its cell
    values; the four report tables are the four dictionaries the helpers
    return. *)

Definition baseURL : string := "https://www.ourcommons.ca".

(** *** Python strings

    A [string] holds the UTF-8 text of a Python [str].  Python measures,
    searches and slices a [str] by character, not by byte: [chars] cuts
    the bytes into the characters, which are an ASCII byte on its own or a
    lead byte together with the continuation bytes that follow it.  (A
    continuation byte with no lead byte before it does not occur in the
    text of a [str]; it counts as a character of its own.) *)

(** The bytes [10xxxxxx]. *)
Definition continuation (b : Ascii.ascii) : bool :=
  let 'Ascii.Ascii _ _ _ _ _ _ b6 b7 := b in b7 && negb b6.

(** The bytes [11xxxxxx]. *)
Definition lead (b : Ascii.ascii) : bool :=
  let 'Ascii.Ascii _ _ _ _ _ _ b6 b7 := b in b7 && b6.

Definition continuation_char (c : string) : bool :=
  match c with
  | String b EmptyString => continuation b
  | _ => false
  end.

(** The continuation bytes at the front of [cs], and what follows them. *)
Fixpoint absorb (cs : list string) : string * list string :=
  match cs with
  | c :: cs' =>
      if continuation_char c then (c +:+ (absorb cs').1, (absorb cs').2)
      else (EmptyString, cs)
  | [] => (EmptyString, [])
  end.

Fixpoint chars (s : string) : list string :=
  match s with
  | EmptyString => []
  | String b s' =>
      if lead b then String b (absorb (chars s')).1 :: (absorb (chars s')).2
      else String b EmptyString :: chars s'
  end.

Definition join (cs : list string) : string := foldr String.append "" cs.

(** [len(s)] *)
Definition len (s : string) : nat := length (chars s).

(** [l.index(x)]: the position of the first element equal to [x];
    [None] stands for [ValueError]. *)
Fixpoint index {A : Type} `{EqDecision A} (x : A) (l : list A) : option nat :=
  match l with
  | [] => None
  | y :: l' => if decide (y = x) then Some 0 else S <$> index x l'
  end.

(** [s.find(c)] for a one-character [c]: the position of the first
    character equal to [c], or -1. *)
Definition find (c s : string) : Z :=
  match index c (chars s) with
  | Some i => Z.of_nat i
  | None => -1
  end.

(** A slice bound as Python reads it: a negative bound counts from the
    end, and every bound is clipped to the string. *)
Definition slice_index (len i : Z) : Z :=
  if (i <? 0)%Z then Z.max 0 (len + i) else Z.min i len.

(** [s[start:stop]] *)
Definition slice (s : string) (start stop : Z) : string :=
  let n := Z.of_nat (len s) in
  let a := slice_index n start in
  let b := slice_index n stop in
  join (take (Z.to_nat (b - a)) (drop (Z.to_nat a) (chars s))).

(** [memberURL[(memberURL.find("(")+1):-1]] *)
Definition extract_id (memberURL : string) : string :=
  slice memberURL (find "(" memberURL + 1) (-1).

(** One character of a [str]. *)
Definition character (c : string) : Prop :=
  chars c = [c] ∧ ∃ b tail, c = String b tail ∧ continuation b = false.

Record tile : Type := {
  href : string;
  name_text : string;
  party_text : string;
  constituency_text : string;
  province_text : string;
  img_src : string
}.

(** One round of the loop of lines 120 to 146. *)
Definition make_member (memberContainer : tile) : record :=
  let memberURL := baseURL +:+ href memberContainer in
  let ID := extract_id memberURL in
  let fullname := name_text memberContainer in
  let party := party_text memberContainer in
  let constituency := constituency_text memberContainer in
  let province := province_text memberContainer in
  let imgURL := baseURL +:+ img_src memberContainer in
  <["ID" := ID]> (<["fullname" := fullname]> (<["party" := party]>
  (<["constituency" := constituency]> (<["province" := province]>
  (<["imgURL" := imgURL]> (<["memberURL" := memberURL]> ∅)))))).

(** [members = []], then [members.append(member)] for every tile. *)
Definition scrape (memberContainers : list tile) : list record :=
  foldl (λ members memberContainer, members ++ [make_member memberContainer])
    [] memberContainers.

Definition headers : list string :=
  ["ID"; "Full Name"; "Political Party"; "Constituency"; "Province"; "Image";
   "Image URL"; "Member Page URL"].

(** The row of lines 168 and 169; the fields are read from left to
    right. *)
Definition member_row (member : record) : res (list string) :=
  ID ← getitem member "ID";
  fullname ← getitem member "fullname";
  party ← getitem member "party";
  constituency ← getitem member "constituency";
  province ← getitem member "province";
  imgURL ← getitem member "imgURL";
  memberURL ← getitem member "memberURL";
  Ok [ID; fullname; party; constituency; province; ""; imgURL; memberURL].

(** The width given to one column (lines 175 to 181); [column] is the
    list of the values of its cells. *)
Definition column_width (column : list string) : nat :=
  foldl (λ max_width value,
           if max_width <? len value then len value else max_width) 0 column
  + 1.

(** [s.replace(old, new)] for one-character [old] and [new]. *)
Fixpoint replace (old new : Ascii.ascii) (s : string) : string :=
  match s with
  | EmptyString => EmptyString
  | String a s' => String (if decide (a = old) then new else a)
                     (replace old new s')
  end.

(** [imgFile] of line 184. *)
Definition img_file (member : record) : res string :=
  fullname ← getitem member "fullname";
  Ok (replace " "%char "-"%char fullname +:+ ".jpg").

(** [rowNum] of line 191. *)
Definition row_num (member : record) (members : list record) : option nat :=
  (λ i, i + 2) <$> index member members.

(** The four dictionaries of the report, in the order of lines 235, 249,
    259 and 278. *)
Definition report_tables (members : list record)
    : res (pydict nat * pydict nat * pydict (pydict nat)
           * pydict (list string)) :=
  partyCount ← count_member "party" members false;
  provinceCount ← count_member "province" members true;
  provincePartyCount ← cross_count_member "province" "party" members false;
  partyProvinceCount ← cross_distinct_key "party" "province" members;
  Ok (partyCount, provinceCount, provincePartyCount, partyProvinceCount).

(** Among equal counts the values ascend; otherwise the larger count comes
    first. *)
Definition count_then_value (a b : string * nat) : Prop :=
  b.2 < a.2 ∨ (a.2 = b.2 ∧ String.ltb a.1 b.1 = true).

(** A small tile for the examples. *)
Definition example_tile : tile :=
  {| href := "/Members/en/ziad-aboultaif(89156)";
     name_text := "Ziad Aboultaif";
     party_text := "Conservative";
     constituency_text := "Edmonton Manning";
     province_text := "Alberta";
     img_src := "/Content/Parliamentarians/Images/AboultaifZiad_CPC.jpg" |}.

Definition example_tile2 : tile :=
  {| href := "/Members/en/stephane-bergeron(104622)";
     name_text := "Stéphane Bergeron";
     party_text := "Bloc Québécois";
     constituency_text := "Montarville";
     province_text := "Quebec";
     img_src := "/Content/Parliamentarians/Images/BergeronStephane_BQ.jpg" |}.

Example count_member_example :
  count_member "party" example_members true = Ok [("A", 2); ("B", 1)].
Proof. vm_compute. reflexivity. Qed.

Example count_member_example_desc :
  count_member "party" (member "B" "QC" :: example_members) false
  = Ok [("A", 2); ("B", 2)].
Proof. vm_compute. reflexivity. Qed.

Example cross_count_member_example :
  cross_count_member "province" "party" example_members true
  = Ok [("ON", [("A", 2)]); ("QC", [("B", 1)])].
Proof. vm_compute. reflexivity. Qed.

Example cross_count_member_example_desc :
  cross_count_member "party" "province"
    (member "A" "ON" :: member "A" "QC" :: member "A" "QC" :: example_members)
    false
  = Ok [("A", [("ON", 3); ("QC", 2)]); ("B", [("QC", 1)])].
Proof. vm_compute. reflexivity. Qed.

Example cross_distinct_key_example :
  cross_distinct_key "party" "province" example_members
  = Ok [("A", ["ON"]); ("B", ["QC"])].
Proof. vm_compute. reflexivity. Qed.

(** ** The error monad *)

Lemma bind_Ok {A B : Type} (a : A) (f : A → res B) : (Ok a ≫= f) = f a.
Proof. reflexivity. Qed.

Lemma bind_Raise {A B : Type} (e : exn) (f : A → res B) :
  (Raise e ≫= f) = Raise e.
Proof. reflexivity. Qed.

Lemma getitem_Some (d : record) (key v : string) :
  d !! key = Some v → getitem d key = Ok v.
Proof. unfold getitem. by intros ->. Qed.

Lemma getitem_None (d : record) (key : string) :
  d !! key = None → getitem d key = Raise (KeyError key).
Proof. unfold getitem. by intros ->. Qed.

Lemma for_each_cons {A S : Type} (x : A) (xs : list A) (s : S)
    (body : S → A → res S) :
  for_each (x :: xs) s body = (body s x ≫= λ s', for_each xs s' body).
Proof. reflexivity. Qed.

(** A loop whose body cannot raise is a left fold. *)
Lemma for_each_pure {A S : Type} (xs : list A) (s : S)
    (body : S → A → res S) (step : S → A → S) :
  (∀ s x, x ∈ xs → body s x = Ok (step s x)) →
  for_each xs s body = Ok (foldl step s xs).
Proof.
  revert s. induction xs as [|x xs IH]; intros s Hbody; [done|].
  simpl. rewrite Hbody by left. rewrite bind_Ok.
  apply IH. intros s' y Hy. apply Hbody. by right.
Qed.

(** ** The order on strings *)

Lemma ltb_lt (a b : string) : String.ltb a b = true ↔ String_as_OT.lt a b.
Proof.
  rewrite <- String_as_OT.cmp_lt. unfold String.ltb, String_as_OT.cmp.
  destruct (String.compare a b); split; congruence.
Qed.

Lemma ltb_irrefl (a : string) : String.ltb a a = false.
Proof.
  destruct (String.ltb a a) eqn:E; [|done].
  apply ltb_lt in E. by apply String_as_OT.lt_not_eq in E.
Qed.

Lemma ltb_trans (a b c : string) :
  String.ltb a b = true → String.ltb b c = true → String.ltb a c = true.
Proof. rewrite !ltb_lt. apply String_as_OT.lt_trans. Qed.

Lemma ltb_asym (a b : string) : String.ltb a b = true → String.ltb b a = false.
Proof.
  intros Hab. destruct (String.ltb b a) eqn:Hba; [|done].
  pose proof (ltb_trans _ _ _ Hab Hba) as Haa.
  by rewrite ltb_irrefl in Haa.
Qed.

Lemma ltb_total (a b : string) :
  String.ltb a b = false → String.ltb b a = false → a = b.
Proof.
  unfold String.ltb. rewrite (String.compare_antisym b a).
  destruct (String.compare a b) eqn:E; simpl; try done.
  intros _ _. by apply String.compare_eq_iff.
Qed.

Lemma ltb_connex (a b c : string) :
  String.ltb b a = false → String.ltb c b = false → String.ltb c a = false.
Proof.
  intros Hab Hbc. destruct (String.ltb c a) eqn:Hca; [|done].
  destruct (String.ltb a b) eqn:E.
  - pose proof (ltb_trans _ _ _ Hca E) as Hcb. congruence.
  - assert (a = b) as -> by by apply ltb_total. congruence.
Qed.

(** ** The stable sort *)

Section stable_sort.
Context {A : Type} (lt : A → A → bool).

Lemma sort_insert_perm (x : A) (l : list A) : sort_insert lt x l ≡ₚ x :: l.
Proof.
  induction l as [|y l IH]; simpl; [done|].
  destruct (lt y x); [|done].
  rewrite IH. apply Permutation_swap.
Qed.

Lemma sorted_by_perm (l : list A) : sorted_by lt l ≡ₚ l.
Proof.
  induction l as [|x l IH]; simpl; [done|].
  rewrite sort_insert_perm. by rewrite IH.
Qed.

Hypothesis lt_asym : ∀ a b, lt a b = true → lt b a = false.
Hypothesis ge_trans : ∀ a b c, lt b a = false → lt c b = false → lt c a = false.

Lemma sort_insert_sorted (x : A) (l : list A) :
  StronglySorted (λ a b, lt b a = false) l →
  StronglySorted (λ a b, lt b a = false) (sort_insert lt x l).
Proof.
  induction 1 as [|y l Hl IH Hy]; simpl.
  - repeat constructor.
  - destruct (lt y x) eqn:E.
    + constructor; [done|].
      rewrite sort_insert_perm. constructor; [by apply lt_asym | done].
    + constructor; [by constructor|].
      constructor; [done|].
      eapply Forall_impl; [exact Hy|]. intros z Hz. by eapply ge_trans.
Qed.

Lemma sorted_by_sorted (l : list A) :
  StronglySorted (λ a b, lt b a = false) (sorted_by lt l).
Proof.
  induction l as [|x l IH]; simpl; [constructor|].
  by apply sort_insert_sorted.
Qed.
End stable_sort.

Lemma StronglySorted_NoDup_strict {A : Type} (R R' : A → A → Prop) (l : list A) :
  (∀ a b, a ≠ b → R a b → R' a b) →
  NoDup l → StronglySorted R l → StronglySorted R' l.
Proof.
  intros HR Hnd. induction 1 as [|x l Hl IH Hx]; [constructor|].
  apply NoDup_cons in Hnd as [Hx' Hnd].
  constructor; [by apply IH|].
  apply Forall_forall. intros y Hy.
  apply HR; [by intros -> | by eapply Forall_forall in Hx].
Qed.

Lemma sorted_perm (xs : list string) : sorted xs ≡ₚ xs.
Proof. apply sorted_by_perm. Qed.

Lemma sorted_ascending (xs : list string) : NoDup xs → ascending (sorted xs).
Proof.
  intros Hnd. unfold ascending.
  apply (StronglySorted_NoDup_strict (λ a b, String.ltb b a = false)).
  - intros a b Hne Hba. destruct (String.ltb a b) eqn:E; [done|].
    destruct Hne. by apply ltb_total.
  - by rewrite sorted_perm.
  - apply sorted_by_sorted; [apply ltb_asym | apply ltb_connex].
Qed.

Lemma ascending_NoDup (l : list string) : ascending l → NoDup l.
Proof.
  induction 1 as [|x l Hl IH Hx]; [constructor|].
  constructor; [|done]. intros Hin.
  eapply Forall_forall in Hx; [|done]. by rewrite ltb_irrefl in Hx.
Qed.

(** The result of [sorted] on distinct strings does not depend on the
    order in which a set hands them over. *)
Lemma sorted_order_irrelevant (xs ys : list string) :
  NoDup xs → xs ≡ₚ ys → sorted xs = sorted ys.
Proof.
  intros Hnd Hp.
  apply (StronglySorted_unique_strong (λ a b, String.ltb a b = true)).
  - intros a b _ _ Hab Hba. apply ltb_asym in Hab. congruence.
  - by apply sorted_ascending.
  - apply sorted_ascending. by rewrite <- Hp.
  - by rewrite !sorted_perm.
Qed.

Lemma sorted_by_count_desc_perm (items : list (string * nat)) :
  sorted_by_count_desc items ≡ₚ items.
Proof. apply sorted_by_perm. Qed.

Lemma sorted_by_count_desc_sorted (items : list (string * nat)) :
  non_increasing (values (sorted_by_count_desc items)).
Proof.
  unfold non_increasing, values, sorted_by_count_desc.
  apply (StronglySorted_fmap snd (λ a b : string * nat, (a.2 <? b.2) = false)).
  { intros a b Hab. by apply Nat.ltb_ge in Hab. }
  apply sorted_by_sorted.
  - intros a b. rewrite Nat.ltb_lt, Nat.ltb_ge. lia.
  - intros a b c. rewrite !Nat.ltb_ge. lia.
Qed.

(** ** Insertion-ordered dictionaries *)

Lemma setitem_fresh {V : Type} (d : pydict V) (k : string) (v : V) :
  k ∉ keys d → setitem d k v = d ++ [(k, v)].
Proof.
  unfold keys. induction d as [|[k' v'] d IH]; intros Hk; [done|].
  simpl in *. apply not_elem_of_cons in Hk as [Hne Hk].
  rewrite decide_False by done. by rewrite IH.
Qed.

Lemma setitem_last {V : Type} (d : pydict V) (k : string) (v v' : V) :
  k ∉ keys d → setitem (d ++ [(k, v)]) k v' = d ++ [(k, v')].
Proof.
  unfold keys. induction d as [|[k' w] d IH]; intros Hk; simpl in *.
  - by rewrite decide_True.
  - apply not_elem_of_cons in Hk as [Hne Hk].
    rewrite decide_False by done. by rewrite IH.
Qed.

Lemma foldl_setitem_fresh {V : Type} (f : string → V) (uvs : list string)
    (acc : pydict V) :
  NoDup uvs → (∀ uv, uv ∈ uvs → uv ∉ keys acc) →
  foldl (λ r uv, setitem r uv (f uv)) acc uvs
  = acc ++ ((λ uv, (uv, f uv)) <$> uvs).
Proof.
  revert acc. induction uvs as [|uv uvs IH]; intros acc Hnd Hfresh; simpl.
  - by rewrite app_nil_r.
  - apply NoDup_cons in Hnd as [Huv Hnd].
    rewrite setitem_fresh by (apply Hfresh; left).
    rewrite IH; [by rewrite <- app_assoc | done |].
    intros uv' Hin. unfold keys. rewrite fmap_app, elem_of_app. simpl.
    intros [Hacc | Hlast%list_elem_of_singleton].
    + by apply (Hfresh uv'); [right|].
    + by subst.
Qed.

Lemma dict_NoDup {V : Type} (pairs : list (string * V)) :
  NoDup (keys pairs) → dict pairs = pairs.
Proof.
  unfold dict.
  enough (∀ acc : pydict V, NoDup (keys (acc ++ pairs)) →
    foldl (λ d kv, setitem d kv.1 kv.2) acc pairs = acc ++ pairs) as H.
  { intros Hnd. by apply (H []). }
  unfold keys. induction pairs as [|[k v] pairs IH]; intros acc Hnd; simpl.
  - by rewrite app_nil_r.
  - rewrite fmap_app in Hnd. apply NoDup_app in Hnd as (Hacc & Hdisj & Hps).
    simpl in Hps. apply NoDup_cons in Hps as [Hk Hps].
    rewrite setitem_fresh.
    + rewrite IH; [by rewrite <- app_assoc|].
      rewrite <- app_assoc. simpl. rewrite fmap_app. simpl.
      apply NoDup_app. split_and!; [done|exact Hdisj|by constructor].
    + intros Hin. apply (Hdisj k Hin). left.
Qed.

Lemma keys_tabulate {V : Type} (f : string → V) (uvs : list string) :
  keys ((λ uv, (uv, f uv)) <$> uvs) = uvs.
Proof.
  unfold keys. rewrite <- list_fmap_compose. apply list_fmap_id.
Qed.

Lemma values_tabulate {V : Type} (f : string → V) (uvs : list string) :
  values ((λ uv, (uv, f uv)) <$> uvs) = f <$> uvs.
Proof. unfold values. by rewrite <- list_fmap_compose. Qed.

Lemma dict_get_tabulate {V : Type} (f : string → V) (uvs : list string)
    (v : string) :
  v ∈ uvs → dict_get ((λ uv, (uv, f uv)) <$> uvs) v = Some (f v).
Proof.
  induction uvs as [|uv uvs IH]; intros Hin; [by apply elem_of_nil in Hin|].
  simpl. destruct (decide (uv = v)) as [->|Hne]; [done|].
  apply IH. by apply elem_of_cons in Hin as [?|?].
Qed.

Lemma dict_get_perm {V : Type} (d d' : pydict V) (k : string) :
  NoDup (keys d) → d ≡ₚ d' → dict_get d k = dict_get d' k.
Proof.
  assert (∀ (d : pydict V) v, NoDup (keys d) →
    (k, v) ∈ d → dict_get d k = Some v) as Hin.
  { clear. unfold keys. induction d as [|[k' w] d IH]; intros v Hnd Hel.
    - by apply elem_of_nil in Hel.
    - simpl in *. apply NoDup_cons in Hnd as [Hk' Hnd].
      apply elem_of_cons in Hel as [[= <- <-]|Hel]; [by rewrite decide_True|].
      destruct (decide (k' = k)) as [->|]; [|by apply IH].
      destruct Hk'. apply list_elem_of_fmap. by exists (k, v). }
  assert (∀ (d : pydict V), dict_get d k = None → k ∉ keys d) as Hnone.
  { clear. unfold keys. induction d as [|[k' w] d IH]; simpl.
    - intros _. apply not_elem_of_nil.
    - destruct (decide (k' = k)); [done|]. intros H%IH.
      by apply not_elem_of_cons. }
  assert (∀ (d : pydict V) v, dict_get d k = Some v → (k, v) ∈ d) as Hsome.
  { clear. induction d as [|[k' w] d IH]; simpl; [done|]. intros v.
    destruct (decide (k' = k)) as [->|]; [intros [= ->]; left|].
    intros H%IH. by right. }
  intros Hnd Hp.
  destruct (dict_get d k) as [v|] eqn:E.
  - symmetry. apply Hin; [unfold keys; by rewrite <- Hp|].
    rewrite <- Hp. by apply Hsome.
  - destruct (dict_get d' k) as [v|] eqn:E'; [|done].
    apply Hsome in E'. rewrite <- Hp in E'.
    apply Hnone in E. destruct E. apply list_elem_of_fmap. by exists (k, v).
Qed.

(** ** Reading the field of every record *)

Lemma list_comp_getitem (key : string) (dict_list : list record) :
  Forall (has_field key) dict_list →
  ∃ vals, list_comp (λ d, getitem d key) dict_list = Ok vals
          ∧ Forall2 (λ (d : record) v, d !! key = Some v) dict_list vals.
Proof.
  induction 1 as [|d dl [v Hv] _ (vals & Hvals & HF)].
  - by exists [].
  - exists (v :: vals). simpl. rewrite (getitem_Some _ _ _ Hv), Hvals.
    split; [done|by constructor].
Qed.

Lemma list_comp_getitem_missing (key : string) (dict_list : list record) :
  Exists (λ d : record, d !! key = None) dict_list →
  list_comp (λ d, getitem d key) dict_list = Raise (KeyError key).
Proof.
  induction 1 as [d dl Hd|d dl _ IH]; simpl.
  - by rewrite (getitem_None _ _ Hd).
  - rewrite IH. unfold getitem. by destruct (d !! key).
Qed.

Lemma unique_sorted_ok (key : string) (dict_list : list record) :
  Forall (has_field key) dict_list →
  ∃ uvs, unique_sorted key dict_list = Ok uvs
         ∧ ascending uvs
         ∧ ∀ v, v ∈ uvs ↔ observed key v dict_list.
Proof.
  intros Hall. destruct (list_comp_getitem _ _ Hall) as (vals & Hvals & HF).
  unfold unique_sorted. rewrite Hvals. eexists. split; [reflexivity|].
  split; [apply sorted_ascending, NoDup_elements|].
  intros v. rewrite sorted_perm, elem_of_elements, elem_of_list_to_set.
  unfold observed. split.
  - intros Hin. apply list_elem_of_lookup in Hin as [i Hi].
    destruct (Forall2_lookup_r _ _ _ _ _ HF Hi) as (d & Hd & Hdv).
    exists d. split; [by eapply list_elem_of_lookup_2|done].
  - intros (d & Hin & Hdv). apply list_elem_of_lookup in Hin as [i Hi].
    destruct (Forall2_lookup_l _ _ _ _ _ HF Hi) as (v' & Hv' & Hdv').
    assert (v' = v) as -> by congruence. by eapply list_elem_of_lookup_2.
Qed.

Lemma unique_sorted_missing (key : string) (dict_list : list record) :
  Exists (λ d : record, d !! key = None) dict_list →
  unique_sorted key dict_list = Raise (KeyError key).
Proof.
  intros H. unfold unique_sorted. by rewrite list_comp_getitem_missing.
Qed.

(** ** The single-key tabulator *)

Lemma occurrences_cons (key v : string) (d : record) (dl : list record) :
  occurrences key v (d :: dl)
  = (if decide (d !! key = Some v) then 1 else 0) + occurrences key v dl.
Proof.
  unfold occurrences. rewrite filter_cons. by destruct (decide _).
Qed.

Lemma count_loop (key uv : string) (dict_list : list record) (c : nat) :
  Forall (has_field key) dict_list →
  for_each dict_list c (λ count dictionary,
    v ← getitem dictionary key;
    Ok (if decide (v = uv) then count + 1 else count))
  = Ok (c + occurrences key uv dict_list).
Proof.
  intros Hall. revert c. induction Hall as [|d dl [v Hv] _ IH]; intros c.
  - simpl. f_equal. unfold occurrences. simpl. lia.
  - rewrite for_each_cons, (getitem_Some _ _ _ Hv), !bind_Ok, IH.
    rewrite occurrences_cons, Hv. f_equal.
    destruct (decide (v = uv)) as [->|Hne].
    + rewrite decide_True by done. lia.
    + rewrite decide_False by congruence. lia.
Qed.

(** With every field present, the default result is the table of the
    occurrence counts over the sorted distinct values; the alternate result
    is that table sorted by count. *)
Lemma count_member_table (key : string) (dict_list : list record) :
  Forall (has_field key) dict_list →
  ∃ uvs, ascending uvs
    ∧ (∀ v, v ∈ uvs ↔ observed key v dict_list)
    ∧ ∀ sort_keys : bool, count_member key dict_list sort_keys
      = Ok (if sort_keys
            then (λ uv, (uv, occurrences key uv dict_list)) <$> uvs
            else sorted_by_count_desc
                   ((λ uv, (uv, occurrences key uv dict_list)) <$> uvs)).
Proof.
  intros Hall. destruct (unique_sorted_ok _ _ Hall) as (uvs & Huvs & Hasc & Hobs).
  exists uvs. split_and!; [done..|]. intros sort_keys.
  unfold count_member. rewrite Huvs, bind_Ok.
  rewrite (for_each_pure _ _ _
    (λ results uv, setitem results uv (occurrences key uv dict_list))).
  2:{ intros r uv _. by rewrite count_loop. }
  rewrite bind_Ok, foldl_setitem_fresh; simpl.
  - destruct sort_keys; [done|]. f_equal. apply dict_NoDup.
    unfold keys. rewrite sorted_by_count_desc_perm.
    fold (keys ((λ uv, (uv, occurrences key uv dict_list)) <$> uvs)).
    rewrite keys_tabulate. by apply ascending_NoDup.
  - by apply ascending_NoDup.
  - intros uv _. apply not_elem_of_nil.
Qed.

Lemma sum_indicator (v : string) (uvs : list string) :
  NoDup uvs → v ∈ uvs →
  sum_list ((λ uv, if decide (Some v = Some uv) then 1 else 0) <$> uvs) = 1.
Proof.
  induction 1 as [|uv uvs Hnin Hnd IH]; intros Hin.
  - by apply elem_of_nil in Hin.
  - csimpl. apply elem_of_cons in Hin as [->|Hin].
    + rewrite decide_True by done.
      enough (sum_list ((λ uv', if decide (Some uv = Some uv') then 1 else 0)
                          <$> uvs) = 0) as -> by done.
      clear IH Hnd. induction uvs as [|u uvs IH]; [done|].
      csimpl. apply not_elem_of_cons in Hnin as [Hne Hnin].
      rewrite decide_False by congruence. by rewrite IH.
    + rewrite decide_False by (intros [= ->]; done). by rewrite IH.
Qed.

Lemma sum_occurrences (key : string) (dict_list : list record)
    (uvs : list string) :
  NoDup uvs → (∀ v, observed key v dict_list → v ∈ uvs) →
  Forall (has_field key) dict_list →
  sum_list ((λ uv, occurrences key uv dict_list) <$> uvs) = length dict_list.
Proof.
  intros Hnd Hobs Hall. induction Hall as [|d dl [v Hv] _ IH].
  - clear. induction uvs as [|uv uvs IH]; [done|]. csimpl. by rewrite IH.
  - assert (sum_list ((λ uv, occurrences key uv (d :: dl)) <$> uvs)
            = sum_list ((λ uv, if decide (Some v = Some uv) then 1 else 0) <$> uvs)
              + sum_list ((λ uv, occurrences key uv dl) <$> uvs)) as ->.
    { clear -Hv. induction uvs as [|uv uvs IH]; [done|]. csimpl.
      rewrite IH, occurrences_cons, Hv.
      destruct (decide (Some v = Some uv)); lia. }
    rewrite sum_indicator, IH; [done| |done|].
    + intros v' (d' & Hin & Hd'). apply Hobs. exists d'. split; [by right|done].
    + apply Hobs. exists d. split; [left|done].
Qed.

(** ** The cross tabulator *)

Lemma cooccurrences_cons (key1 key2 v1 v2 : string) (d : record)
    (dl : list record) :
  cooccurrences key1 key2 v1 v2 (d :: dl)
  = (if decide (d !! key1 = Some v1 ∧ d !! key2 = Some v2) then 1 else 0)
    + cooccurrences key1 key2 v1 v2 dl.
Proof.
  unfold cooccurrences. rewrite filter_cons. by destruct (decide _).
Qed.

Lemma cooccurrences_le (key1 key2 v1 v2 : string) (dl : list record) :
  cooccurrences key1 key2 v1 v2 dl ≤ occurrences key1 v1 dl.
Proof.
  induction dl as [|d dl IH]; [done|].
  rewrite cooccurrences_cons, occurrences_cons.
  destruct (decide (_ ∧ _)) as [[? ?]|]; [rewrite decide_True by done|]; lia.
Qed.

Lemma cooccurrences_pos (key1 key2 v1 v2 : string) (dl : list record) :
  0 < cooccurrences key1 key2 v1 v2 dl →
  ∃ d : record, d ∈ dl ∧ d !! key1 = Some v1 ∧ d !! key2 = Some v2.
Proof.
  induction dl as [|d dl IH]; [unfold cooccurrences; simpl; lia|].
  rewrite cooccurrences_cons.
  destruct (decide (_ ∧ _)) as [[? ?]|].
  - intros _. exists d. split; [left|done].
  - intros (d' & Hin & Hd')%IH. exists d'. split; [by right|done].
Qed.

Lemma cross_match_ok (key1 key2 uv1 uv2 : string) (d : record) :
  has_field key1 d → has_field key2 d →
  cross_match key1 key2 uv1 uv2 d
  = Ok (bool_decide (d !! key1 = Some uv1 ∧ d !! key2 = Some uv2)).
Proof.
  intros [v1 H1] [v2 H2]. unfold cross_match.
  rewrite (getitem_Some _ _ _ H2), bind_Ok, H1, H2.
  destruct (decide (v2 = uv2)) as [->|Hne].
  - rewrite (getitem_Some _ _ _ H1), bind_Ok. f_equal.
    apply bool_decide_ext. split; [by intros ->|]. by intros [[= ->] _].
  - f_equal. symmetry. apply bool_decide_eq_false. intros [_ [= ?]]. done.
Qed.

Lemma cross_count_loop (key1 key2 uv1 uv2 : string) (dict_list : list record)
    (c : nat) :
  Forall (has_field key1) dict_list → Forall (has_field key2) dict_list →
  for_each dict_list c (λ count dictionary,
    b ← cross_match key1 key2 uv1 uv2 dictionary;
    Ok (if b : bool then count + 1 else count))
  = Ok (c + cooccurrences key1 key2 uv1 uv2 dict_list).
Proof.
  intros H1 H2. revert c.
  induction dict_list as [|d dl IH]; intros c.
  - simpl. f_equal. unfold cooccurrences. simpl. lia.
  - apply Forall_cons in H1 as [Hd1 H1]. apply Forall_cons in H2 as [Hd2 H2].
    rewrite for_each_cons, cross_match_ok, !bind_Ok, IH by done.
    rewrite cooccurrences_cons. f_equal.
    destruct (decide (_ ∧ _)).
    + rewrite bool_decide_eq_true_2 by done. lia.
    + rewrite bool_decide_eq_false_2 by done. lia.
Qed.

Lemma setitem_setitem {V : Type} (d : pydict V) (k : string) (v v' : V) :
  setitem (setitem d k v) k v' = setitem d k v'.
Proof.
  induction d as [|[k' w] d IH]; simpl.
  - by rewrite decide_True.
  - destruct (decide (k' = k)) as [->|Hne]; simpl.
    + by rewrite decide_True.
    + rewrite decide_False by done. by rewrite IH.
Qed.

(** The loop over the secondary values: the first component is the fold
    of [cross_count_step]; the second has it stored under the primary value
    as soon as the loop has run once. *)
Lemma secondary_loop (key1 key2 uv1 : string) (dict_list : list record)
    (sort_keys : bool) (uvs2 : list string) (cc : pydict nat)
    (results : pydict (pydict nat)) :
  Forall (has_field key1) dict_list → Forall (has_field key2) dict_list →
  for_each uvs2 (cc, results) (λ st unique_value_2,
    count ← for_each dict_list 0 (λ count dictionary,
      b ← cross_match key1 key2 uv1 unique_value_2 dictionary;
      Ok (if b : bool then count + 1 else count));
    let cross_count :=
      if 0 <? count then setitem st.1 unique_value_2 count else st.1 in
    let cross_count :=
      if negb sort_keys then dict (sorted_by_count_desc cross_count)
      else cross_count in
    Ok (cross_count, setitem st.2 uv1 cross_count))
  = Ok (let cc' := foldl (cross_count_step sort_keys
                      (λ uv2, cooccurrences key1 key2 uv1 uv2 dict_list)) cc uvs2 in
        (cc', match uvs2 with [] => results | _ => setitem results uv1 cc' end)).
Proof.
  intros H1 H2. revert cc results.
  induction uvs2 as [|uv2 uvs2 IH]; intros cc results; [done|].
  rewrite for_each_cons, cross_count_loop, bind_Ok by done.
  cbv zeta in IH |- *. rewrite bind_Ok, IH. simpl.
  destruct uvs2; [done|]. by rewrite setitem_setitem.
Qed.

(** *** The row of one primary value *)

Lemma cross_row_cons (f : string → nat) (x : string) (l : list string) :
  cross_row f (x :: l)
  = (if decide (0 < f x) then [(x, f x)] else []) ++ cross_row f l.
Proof.
  unfold cross_row. rewrite fmap_cons, filter_cons. simpl.
  by destruct (decide (0 < f x)).
Qed.

Lemma cross_row_snoc (f : string → nat) (l : list string) (x : string) :
  cross_row f (l ++ [x])
  = cross_row f l ++ (if decide (0 < f x) then [(x, f x)] else []).
Proof.
  induction l as [|y l IH]; simpl.
  - rewrite cross_row_cons. unfold cross_row. simpl. by rewrite app_nil_r.
  - rewrite !cross_row_cons, IH. by rewrite app_assoc.
Qed.

Lemma elem_of_cross_row (f : string → nat) (uvs2 : list string) (v : string)
    (c : nat) :
  (v, c) ∈ cross_row f uvs2 ↔ v ∈ uvs2 ∧ c = f v ∧ 0 < c.
Proof.
  unfold cross_row. rewrite list_elem_of_filter, list_elem_of_fmap. simpl.
  split.
  - intros (Hpos & uv & [= -> ->] & Hin). done.
  - intros (Hin & -> & Hpos). split; [done|]. by exists v.
Qed.

Lemma keys_cross_row_elem (f : string → nat) (uvs2 : list string) (v : string) :
  v ∈ keys (cross_row f uvs2) → v ∈ uvs2.
Proof.
  unfold keys. intros ([v' c] & -> & Hin)%list_elem_of_fmap.
  by apply elem_of_cross_row in Hin as (? & _).
Qed.

Lemma ascending_keys_cross_row (f : string → nat) (uvs2 : list string) :
  ascending uvs2 → ascending (keys (cross_row f uvs2)).
Proof.
  unfold ascending. induction 1 as [|x l Hl IH Hx].
  - constructor.
  - rewrite cross_row_cons. destruct (decide (0 < f x)); [|done].
    simpl. constructor; [done|].
    apply Forall_forall. intros y Hy%keys_cross_row_elem.
    by eapply Forall_forall in Hx.
Qed.

Lemma sum_values_cross_row (f : string → nat) (uvs2 : list string) :
  sum_list (values (cross_row f uvs2)) = sum_list (f <$> uvs2).
Proof.
  unfold values. induction uvs2 as [|x l IH]; [done|].
  rewrite cross_row_cons, fmap_app, sum_list_with_app, IH. csimpl.
  destruct (decide (0 < f x)); simpl; lia.
Qed.

Lemma NoDup_keys_cross_row (f : string → nat) (uvs2 : list string) :
  NoDup uvs2 → NoDup (keys (cross_row f uvs2)).
Proof.
  induction 1 as [|x l Hx Hl IH]; [constructor|].
  rewrite cross_row_cons. destruct (decide (0 < f x)); [|done].
  simpl. constructor; [|done]. by intros Hin%keys_cross_row_elem.
Qed.

(** The fold of [cross_count_step] holds the row: in its order with the
    default flag, and by non-increasing count with the alternate flag. *)
Lemma cross_count_fold (sort_keys : bool) (f : string → nat)
    (uvs2 : list string) :
  NoDup uvs2 →
  foldl (cross_count_step sort_keys f) [] uvs2 ≡ₚ cross_row f uvs2
  ∧ (sort_keys = true →
     foldl (cross_count_step sort_keys f) [] uvs2 = cross_row f uvs2)
  ∧ (sort_keys = false →
     non_increasing (values (foldl (cross_count_step sort_keys f) [] uvs2))).
Proof.
  induction uvs2 as [|x l IH] using rev_ind; intros Hnd.
  { split_and!; [done|done|]. intros _. constructor. }
  apply NoDup_app in Hnd as (Hl & Hx & _).
  destruct (IH Hl) as (Hperm & Heq & _). clear IH.
  rewrite foldl_snoc, cross_row_snoc.
  set (cc := foldl (cross_count_step sort_keys f) [] l) in *.
  assert (x ∉ keys cc) as Hfresh.
  { unfold keys. rewrite Hperm. intros Hin%keys_cross_row_elem.
    apply (Hx x Hin). left. }
  assert (NoDup (keys cc)) as Hkeys.
  { unfold keys. rewrite Hperm. by apply NoDup_keys_cross_row. }
  unfold cross_count_step. fold cc.
  set (cc1 := if 0 <? f x then setitem cc x (f x) else cc).
  assert (cc1 = cc ++ (if decide (0 < f x) then [(x, f x)] else [])) as Hcc1.
  { unfold cc1. destruct (decide (0 < f x)) as [Hpos|Hpos].
    - apply Nat.ltb_lt in Hpos as ->. by apply setitem_fresh.
    - apply Nat.ltb_nlt in Hpos as ->. by rewrite app_nil_r. }
  assert (cc1 ≡ₚ cross_row f l ++ (if decide (0 < f x) then [(x, f x)] else []))
    as Hperm1 by by rewrite Hcc1, Hperm.
  destruct sort_keys; simpl.
  - split_and!; [done| |done]. intros _. by rewrite Hcc1, Heq.
  - assert (dict (sorted_by_count_desc cc1) = sorted_by_count_desc cc1) as ->.
    { apply dict_NoDup. unfold keys.
      rewrite sorted_by_count_desc_perm, Hperm1, <- cross_row_snoc.
      apply NoDup_keys_cross_row. apply NoDup_app. split_and!; [done|done|].
      apply NoDup_singleton. }
    split_and!; [|done|].
    + by rewrite sorted_by_count_desc_perm.
    + intros _. apply sorted_by_count_desc_sorted.
Qed.

Lemma observed_nonempty (key : string) (dict_list : list record)
    (uvs : list string) :
  Forall (has_field key) dict_list →
  (∀ v, v ∈ uvs ↔ observed key v dict_list) →
  dict_list ≠ [] → uvs ≠ [].
Proof.
  intros Hall Hobs Hne ->. destruct dict_list as [|d dl]; [done|].
  apply Forall_cons in Hall as [[v Hv] _].
  eapply elem_of_nil, Hobs. exists d. split; [left|exact Hv].
Qed.

(** With both fields present everywhere, the result maps every distinct
    primary value, in ascending order, to the fold of [cross_count_step]
    over the distinct secondary values. *)
Lemma cross_count_member_table (key1 key2 : string) (dict_list : list record)
    (sort_keys : bool) :
  Forall (has_field key1) dict_list → Forall (has_field key2) dict_list →
  ∃ uvs1 uvs2, ascending uvs1 ∧ ascending uvs2
    ∧ (∀ v, v ∈ uvs1 ↔ observed key1 v dict_list)
    ∧ (∀ v, v ∈ uvs2 ↔ observed key2 v dict_list)
    ∧ cross_count_member key1 key2 dict_list sort_keys
      = Ok ((λ uv1, (uv1, foldl (cross_count_step sort_keys
               (λ uv2, cooccurrences key1 key2 uv1 uv2 dict_list)) [] uvs2))
            <$> uvs1).
Proof.
  intros H1 H2.
  destruct (unique_sorted_ok _ _ H1) as (uvs1 & Huvs1 & Hasc1 & Hobs1).
  destruct (unique_sorted_ok _ _ H2) as (uvs2 & Huvs2 & Hasc2 & Hobs2).
  exists uvs1, uvs2. split_and!; [done..|].
  unfold cross_count_member. rewrite Huvs1, Huvs2, !bind_Ok.
  rewrite (for_each_pure _ _ _ (λ results uv1, setitem results uv1
    (foldl (cross_count_step sort_keys
       (λ uv2, cooccurrences key1 key2 uv1 uv2 dict_list)) [] uvs2))).
  - rewrite foldl_setitem_fresh; [done|by apply ascending_NoDup|].
    intros uv _. apply not_elem_of_nil.
  - intros results uv1 Hin. rewrite secondary_loop, bind_Ok by done.
    simpl. destruct uvs2; [|done]. exfalso.
    eapply (observed_nonempty key2 dict_list []); [done..| |done].
    intros ->. apply Hobs1 in Hin as (d & Hd & _). by apply elem_of_nil in Hd.
Qed.

Lemma sum_cooccurrences (key1 key2 uv1 : string) (dict_list : list record)
    (uvs2 : list string) :
  NoDup uvs2 → (∀ v, observed key2 v dict_list → v ∈ uvs2) →
  Forall (has_field key2) dict_list →
  sum_list ((λ uv2, cooccurrences key1 key2 uv1 uv2 dict_list) <$> uvs2)
  = occurrences key1 uv1 dict_list.
Proof.
  intros Hnd Hobs Hall. induction Hall as [|d dl [v Hv] _ IH].
  - clear. induction uvs2 as [|uv uvs IH]; [done|]. csimpl. by rewrite IH.
  - assert (sum_list ((λ uv2, cooccurrences key1 key2 uv1 uv2 (d :: dl)) <$> uvs2)
            = (if decide (d !! key1 = Some uv1) then
                 sum_list ((λ uv, if decide (Some v = Some uv) then 1 else 0)
                             <$> uvs2)
               else 0)
              + sum_list ((λ uv2, cooccurrences key1 key2 uv1 uv2 dl) <$> uvs2))
      as ->.
    { clear -Hv. induction uvs2 as [|uv uvs IH]; [by destruct (decide _)|].
      csimpl. rewrite IH, cooccurrences_cons, Hv.
      destruct (decide (d !! key1 = Some uv1)) as [H1|H1].
      - destruct (decide (Some v = Some uv)) as [H2|H2].
        + rewrite decide_True by done. lia.
        + rewrite decide_False by (intros [_ ?]; done). lia.
      - rewrite decide_False by (intros [? _]; done). lia. }
    rewrite occurrences_cons, IH.
    + destruct (decide (d !! key1 = Some uv1)); [|done].
      rewrite sum_indicator; [done..|].
      apply Hobs. exists d. split; [left|done].
    + intros v' (d' & Hin & Hd'). apply Hobs. exists d'. split; [by right|done].
Qed.

(** ** The distinct-value lister *)

Lemma distinct_loop (key1 key2 uv1 : string) (dict_list : list record)
    (s : gset string) :
  Forall (has_field key1) dict_list → Forall (has_field key2) dict_list →
  for_each dict_list s (λ distinct_key2 dictionary,
    v1 ← getitem dictionary key1;
    if decide (v1 = uv1) then
      v2 ← getitem dictionary key2;
      Ok ({[ v2 ]} ∪ distinct_key2)
    else Ok distinct_key2)
  = Ok (foldl (distinct_step key1 key2 uv1) s dict_list).
Proof.
  intros H1 H2. apply for_each_pure. intros s' d Hin.
  eapply Forall_forall in H1 as [v1 Hv1]; [|done].
  eapply Forall_forall in H2 as [v2 Hv2]; [|done].
  unfold distinct_step. rewrite (getitem_Some _ _ _ Hv1), bind_Ok, Hv1, Hv2.
  destruct (decide (v1 = uv1)) as [->|Hne].
  - rewrite decide_True by done. by rewrite (getitem_Some _ _ _ Hv2).
  - rewrite decide_False by congruence. done.
Qed.

Lemma elem_of_distinct_fold (key1 key2 uv1 : string) (dict_list : list record)
    (s : gset string) (v2 : string) :
  v2 ∈ foldl (distinct_step key1 key2 uv1) s dict_list
  ↔ v2 ∈ s ∨ ∃ d : record, d ∈ dict_list
              ∧ d !! key1 = Some uv1 ∧ d !! key2 = Some v2.
Proof.
  revert s. induction dict_list as [|d dl IH]; intros s; simpl.
  - split; [by left|]. intros [?|(d & Hd & _)]; [done|].
    by apply elem_of_nil in Hd.
  - rewrite IH. unfold distinct_step.
    destruct (decide (d !! key1 = Some uv1)) as [H1|H1].
    + destruct (d !! key2) as [w|] eqn:H2.
      * rewrite elem_of_union, elem_of_singleton. split.
        -- intros [[->|?]|(d' & Hd' & ?)]; [right|by left|right].
           ++ exists d. split; [left|done].
           ++ exists d'. split; [by right|done].
        -- intros [?|(d' & Hd' & Hk1 & Hk2)]; [left; by right|].
           apply elem_of_cons in Hd' as [->|Hd'].
           ++ left. left. congruence.
           ++ right. by exists d'.
      * split.
        -- intros [?|(d' & Hd' & ?)]; [by left|right].
           exists d'. split; [by right|done].
        -- intros [?|(d' & Hd' & Hk1 & Hk2)]; [by left|].
           apply elem_of_cons in Hd' as [->|Hd']; [congruence|].
           right. by exists d'.
    + split.
      * intros [?|(d' & Hd' & ?)]; [by left|right].
        exists d'. split; [by right|done].
      * intros [?|(d' & Hd' & Hk1 & Hk2)]; [by left|].
        apply elem_of_cons in Hd' as [->|Hd']; [congruence|].
        right. by exists d'.
Qed.

Lemma cross_distinct_key_table (key1 key2 : string) (dict_list : list record) :
  Forall (has_field key1) dict_list → Forall (has_field key2) dict_list →
  ∃ uvs1, ascending uvs1
    ∧ (∀ v, v ∈ uvs1 ↔ observed key1 v dict_list)
    ∧ cross_distinct_key key1 key2 dict_list
      = Ok ((λ uv1, (uv1, sorted (elements
               (foldl (distinct_step key1 key2 uv1) ∅ dict_list)))) <$> uvs1).
Proof.
  intros H1 H2.
  destruct (unique_sorted_ok _ _ H1) as (uvs1 & Huvs1 & Hasc1 & Hobs1).
  exists uvs1. split_and!; [done..|].
  unfold cross_distinct_key. rewrite Huvs1, bind_Ok.
  rewrite (for_each_pure _ _ _ (λ results uv1, setitem results uv1
    (sorted (elements (foldl (distinct_step key1 key2 uv1) ∅ dict_list))))).
  - rewrite foldl_setitem_fresh; [done|by apply ascending_NoDup|].
    intros uv _. apply not_elem_of_nil.
  - intros results uv1 _. by rewrite distinct_loop.
Qed.

(** ** Missing fields *)

Lemma for_each_raise_or_ok {A S : Type} (e : exn) (xs : list A) (s : S)
    (body : S → A → res S) :
  (∀ s x, x ∈ xs → body s x = Raise e ∨ ∃ s', body s x = Ok s') →
  for_each xs s body = Raise e ∨ ∃ s', for_each xs s body = Ok s'.
Proof.
  revert s. induction xs as [|x xs IH]; intros s Hbody; [right; by eexists|].
  rewrite for_each_cons.
  destruct (Hbody s x ltac:(left)) as [->|[s' ->]]; [by left|].
  rewrite bind_Ok. apply IH. intros s'' y Hy. apply Hbody. by right.
Qed.

Lemma for_each_raise {A S : Type} (e : exn) (xs : list A) (s : S)
    (body : S → A → res S) :
  (∀ s x, x ∈ xs → body s x = Raise e ∨ ∃ s', body s x = Ok s') →
  (∃ x, x ∈ xs ∧ ∀ s, body s x = Raise e) →
  for_each xs s body = Raise e.
Proof.
  revert s. induction xs as [|x xs IH]; intros s Hbody (x0 & Hin & Hx0).
  { by apply elem_of_nil in Hin. }
  rewrite for_each_cons.
  destruct (Hbody s x ltac:(left)) as [->|[s' Hs']]; [done|].
  rewrite Hs', bind_Ok. apply IH.
  - intros s'' y Hy. apply Hbody. by right.
  - exists x0. split; [|done].
    apply elem_of_cons in Hin as [->|Hin]; [|done]. congruence.
Qed.

Lemma has_or_missing (key : string) (dict_list : list record) :
  Forall (has_field key) dict_list
  ∨ Exists (λ d : record, d !! key = None) dict_list.
Proof.
  induction dict_list as [|d dl [IH|IH]].
  - left. constructor.
  - destruct (d !! key) as [v|] eqn:E.
    + left. constructor; [by exists v|done].
    + right. by left.
  - right. by right.
Qed.

(** The lister reads the secondary field of every record, as each
    record's primary value is one of the values the outer loop visits. *)
Lemma cross_distinct_key_missing_secondary (key1 key2 : string)
    (dict_list : list record) :
  Forall (has_field key1) dict_list →
  Exists (λ d : record, d !! key2 = None) dict_list →
  cross_distinct_key key1 key2 dict_list = Raise (KeyError key2).
Proof.
  intros H1 Hmiss.
  destruct (unique_sorted_ok _ _ H1) as (uvs1 & Huvs1 & _ & Hobs1).
  unfold cross_distinct_key. rewrite Huvs1, bind_Ok.
  assert (∀ uv1 (s : gset string) (d : record), d ∈ dict_list →
    (v1 ← getitem d key1;
     if decide (v1 = uv1) then v2 ← getitem d key2; Ok ({[ v2 ]} ∪ s)
     else Ok s) = Raise (KeyError key2)
    ∨ ∃ s', (v1 ← getitem d key1;
     if decide (v1 = uv1) then v2 ← getitem d key2; Ok ({[ v2 ]} ∪ s)
     else Ok s) = Ok s') as Hinner.
  { intros uv1 s d Hd. eapply Forall_forall in H1 as [v1 Hv1]; [|done].
    rewrite (getitem_Some _ _ _ Hv1), bind_Ok.
    destruct (decide (v1 = uv1)); [|right; by eexists].
    unfold getitem. destruct (d !! key2); [right; by eexists|by left]. }
  apply Exists_exists in Hmiss as (d0 & Hd0 & Hnone).
  pose proof H1 as H1'. eapply Forall_forall in H1' as [v0 Hv0]; [|exact Hd0].
  apply for_each_raise.
  - intros results uv1 _.
    destruct (for_each_raise_or_ok (KeyError key2) dict_list ∅
      (λ (s : gset string) (d : record), v1 ← getitem d key1;
         if decide (v1 = uv1) then v2 ← getitem d key2; Ok ({[ v2 ]} ∪ s)
         else Ok s)) as [->|[s' ->]]; [by intros; apply Hinner|by left|].
    right. by eexists.
  - exists v0. split; [apply Hobs1; by exists d0|].
    intros results. rewrite (for_each_raise (KeyError key2));
      [done|by intros; apply Hinner|].
    exists d0. split; [done|]. intros s.
    rewrite (getitem_Some _ _ _ Hv0), bind_Ok, decide_True by done.
    by rewrite (getitem_None _ _ Hnone).
Qed.

(** ** Reading the single-key table back *)

Lemma count_member_lookup (key : string) (dict_list : list record)
    (sort_keys : bool) :
  Forall (has_field key) dict_list →
  ∃ single, count_member key dict_list sort_keys = Ok single
    ∧ ∀ v, observed key v dict_list →
           dict_get single v = Some (occurrences key v dict_list).
Proof.
  intros Hall.
  destruct (count_member_table key dict_list Hall)
    as (uvs & Hasc & Hobs & Heq).
  eexists. split; [exact (Heq sort_keys)|]. intros v Hv%Hobs.
  pose proof (dict_get_tabulate (λ uv, occurrences key uv dict_list) uvs v Hv)
    as Hget.
  destruct sort_keys; [done|].
  rewrite <- (dict_get_perm
    ((λ uv, (uv, occurrences key uv dict_list)) <$> uvs)).
  - done.
  - rewrite keys_tabulate. by apply ascending_NoDup.
  - by rewrite sorted_by_count_desc_perm.
Qed.

(** * The properties *)

(** C1: for a non-empty list of records that all have the field, the
    counts in the mapping returned by [count_member] add up to the number
    of records, with either value of the ordering flag. *)
Theorem count_member_sum (key : string) (dict_list : list record)
    (sort_keys : bool) :
  dict_list ≠ [] →
  Forall (has_field key) dict_list →
  ∃ results, count_member key dict_list sort_keys = Ok results
    ∧ sum_list (values results) = length dict_list.
Proof.
  intros _ Hall.
  destruct (count_member_table key dict_list Hall)
    as (uvs & Hasc & Hobs & Heq).
  eexists. split; [exact (Heq sort_keys)|].
  assert (sum_list (values ((λ uv, (uv, occurrences key uv dict_list)) <$> uvs))
          = length dict_list) as Hsum.
  { rewrite values_tabulate. apply sum_occurrences; [|by intros v ?%Hobs|done].
    by apply ascending_NoDup. }
  destruct sort_keys; [done|].
  rewrite <- Hsum. unfold values. by rewrite sorted_by_count_desc_perm.
Qed.

Lemma count_member_sum_witness :
  example_members ≠ [] ∧ Forall (has_field "party") example_members
  ∧ ∃ results, count_member "party" example_members false = Ok results
      ∧ sum_list (values results) = length example_members.
Proof.
  assert (Forall (has_field "party") example_members) as Hall.
  { repeat constructor; by eexists. }
  split_and!; [done|exact Hall|].
  apply (count_member_sum "party" example_members false); [done|exact Hall].
Defined.

(** C2: when every record has both fields, each count in a nested mapping
    of [cross_count_member] is at most the count that [count_member]
    gives the same primary value. *)
Theorem cross_count_le_count (key1 key2 : string) (dict_list : list record)
    (sort_keys sort_keys' : bool) :
  Forall (has_field key1) dict_list →
  Forall (has_field key2) dict_list →
  ∃ cross single,
    cross_count_member key1 key2 dict_list sort_keys = Ok cross
    ∧ count_member key1 dict_list sort_keys' = Ok single
    ∧ ∀ v1 nested v2 c, (v1, nested) ∈ cross → (v2, c) ∈ nested →
        ∃ n, dict_get single v1 = Some n ∧ c ≤ n.
Proof.
  intros H1 H2.
  destruct (cross_count_member_table key1 key2 dict_list sort_keys H1 H2)
    as (uvs1 & uvs2 & Hasc1 & Hasc2 & Hobs1 & Hobs2 & Hcross).
  destruct (count_member_lookup key1 dict_list sort_keys' H1)
    as (single & Hsingle & Hget).
  eexists _, single. split_and!; [exact Hcross|exact Hsingle|].
  intros v1 nested v2 c (uv1 & [= -> ->] & Hin)%list_elem_of_fmap Hc.
  exists (occurrences key1 uv1 dict_list).
  split; [by apply Hget, Hobs1|].
  destruct (cross_count_fold sort_keys
    (λ uv2, cooccurrences key1 key2 uv1 uv2 dict_list) uvs2) as (Hperm & _).
  { by apply ascending_NoDup. }
  rewrite Hperm in Hc. apply elem_of_cross_row in Hc as (_ & -> & _).
  apply cooccurrences_le.
Qed.

Lemma cross_count_le_count_witness :
  Forall (has_field "province") example_members
  ∧ Forall (has_field "party") example_members
  ∧ ∃ cross single,
      cross_count_member "province" "party" example_members true = Ok cross
      ∧ count_member "province" example_members true = Ok single
      ∧ ∀ v1 nested v2 c, (v1, nested) ∈ cross → (v2, c) ∈ nested →
          ∃ n, dict_get single v1 = Some n ∧ c ≤ n.
Proof.
  assert (Forall (has_field "province") example_members) as H1.
  { repeat constructor; by eexists. }
  assert (Forall (has_field "party") example_members) as H2.
  { repeat constructor; by eexists. }
  split_and!; [exact H1|exact H2|].
  exact (cross_count_le_count "province" "party" example_members true true
           H1 H2).
Defined.

(** C3: when every record has the field, the keys of the mapping returned
    by [count_member] with the default flag are in strictly ascending
    order, and with the alternate flag the counts never increase along the
    iteration order. *)
Theorem count_member_order (key : string) (dict_list : list record) :
  Forall (has_field key) dict_list →
  (∃ results, count_member key dict_list true = Ok results
     ∧ ascending (keys results))
  ∧ (∃ results, count_member key dict_list false = Ok results
     ∧ non_increasing (values results)).
Proof.
  intros Hall.
  destruct (count_member_table key dict_list Hall)
    as (uvs & Hasc & Hobs & Heq).
  split.
  - eexists. split; [exact (Heq true)|]. by rewrite keys_tabulate.
  - eexists. split; [exact (Heq false)|]. apply sorted_by_count_desc_sorted.
Qed.

Lemma count_member_order_witness :
  Forall (has_field "party") example_members
  ∧ (∃ results, count_member "party" example_members true = Ok results
       ∧ ascending (keys results))
  ∧ (∃ results, count_member "party" example_members false = Ok results
       ∧ non_increasing (values results)).
Proof.
  assert (Forall (has_field "party") example_members) as Hall.
  { repeat constructor; by eexists. }
  split; [exact Hall|].
  exact (count_member_order "party" example_members Hall).
Defined.

(** C4: on the empty list of records each of the three helpers returns
    the empty mapping, whatever the field names and the flag. *)
Theorem empty_input (key1 key2 : string) (sort_keys : bool) :
  count_member key1 [] sort_keys = Ok []
  ∧ cross_count_member key1 key2 [] sort_keys = Ok []
  ∧ cross_distinct_key key1 key2 [] = Ok [].
Proof.
  unfold count_member, cross_count_member, cross_distinct_key, unique_sorted.
  simpl. rewrite elements_empty. simpl. by destruct sort_keys.
Qed.

(** C5: when every record has both fields, the outer mapping of
    [cross_count_member] has exactly the distinct primary values as keys, in
    ascending order, and each nested mapping holds exactly the secondary
    values that occur with that primary value, each once and with its
    co-occurrence count; a secondary value that never occurs with it is
    left out. *)
Theorem cross_count_member_contents (key1 key2 : string)
    (dict_list : list record) (sort_keys : bool) :
  Forall (has_field key1) dict_list →
  Forall (has_field key2) dict_list →
  ∃ cross, cross_count_member key1 key2 dict_list sort_keys = Ok cross
    ∧ ascending (keys cross)
    ∧ (∀ v1, v1 ∈ keys cross ↔ observed key1 v1 dict_list)
    ∧ ∀ v1 nested, (v1, nested) ∈ cross →
        NoDup (keys nested)
        ∧ ∀ v2 c, (v2, c) ∈ nested
                  ↔ 0 < c ∧ c = cooccurrences key1 key2 v1 v2 dict_list.
Proof.
  intros H1 H2.
  destruct (cross_count_member_table key1 key2 dict_list sort_keys H1 H2)
    as (uvs1 & uvs2 & Hasc1 & Hasc2 & Hobs1 & Hobs2 & Hcross).
  eexists. split; [exact Hcross|]. rewrite keys_tabulate.
  split_and!; [done..|].
  intros v1 nested (uv1 & [= -> ->] & Hin)%list_elem_of_fmap.
  destruct (cross_count_fold sort_keys
    (λ uv2, cooccurrences key1 key2 uv1 uv2 dict_list) uvs2) as (Hperm & _).
  { by apply ascending_NoDup. }
  split.
  - unfold keys. rewrite Hperm.
    by apply NoDup_keys_cross_row, ascending_NoDup.
  - intros v2 c. rewrite Hperm, elem_of_cross_row. split.
    + by intros (_ & -> & Hpos).
    + intros [Hpos ->]. split_and!; [|done..].
      apply cooccurrences_pos in Hpos as (d & Hd & _ & Hk2).
      apply Hobs2. by exists d.
Qed.

Lemma cross_count_member_contents_witness :
  Forall (has_field "province") example_members
  ∧ Forall (has_field "party") example_members
  ∧ ∃ cross,
      cross_count_member "province" "party" example_members false = Ok cross
      ∧ ascending (keys cross)
      ∧ (∀ v1, v1 ∈ keys cross ↔ observed "province" v1 example_members)
      ∧ ∀ v1 nested, (v1, nested) ∈ cross →
          NoDup (keys nested)
          ∧ ∀ v2 c, (v2, c) ∈ nested
              ↔ 0 < c
                ∧ c = cooccurrences "province" "party" v1 v2 example_members.
Proof.
  assert (Forall (has_field "province") example_members) as H1.
  { repeat constructor; by eexists. }
  assert (Forall (has_field "party") example_members) as H2.
  { repeat constructor; by eexists. }
  split_and!; [exact H1|exact H2|].
  exact (cross_count_member_contents "province" "party" example_members false
           H1 H2).
Defined.



(** C7: when every record has both fields, [cross_distinct_key] maps each
    distinct primary value, keys ascending, to the list of exactly the
    secondary values seen in the records with that primary value; the list
    is in ascending order and has no duplicates. *)
Theorem cross_distinct_key_contents (key1 key2 : string)
    (dict_list : list record) :
  Forall (has_field key1) dict_list →
  Forall (has_field key2) dict_list →
  ∃ results, cross_distinct_key key1 key2 dict_list = Ok results
    ∧ ascending (keys results)
    ∧ (∀ v1, v1 ∈ keys results ↔ observed key1 v1 dict_list)
    ∧ ∀ v1 l, (v1, l) ∈ results →
        ascending l ∧ NoDup l
        ∧ ∀ v2, v2 ∈ l ↔ ∃ d : record, d ∈ dict_list
                     ∧ d !! key1 = Some v1 ∧ d !! key2 = Some v2.
Proof.
  intros H1 H2.
  destruct (cross_distinct_key_table key1 key2 dict_list H1 H2)
    as (uvs1 & Hasc1 & Hobs1 & Heq).
  eexists. split; [exact Heq|]. rewrite keys_tabulate.
  split_and!; [done..|].
  intros v1 l (uv1 & [= -> ->] & Hin)%list_elem_of_fmap.
  assert (ascending (sorted (elements
    (foldl (distinct_step key1 key2 uv1) ∅ dict_list)))) as Hasc.
  { apply sorted_ascending, NoDup_elements. }
  split_and!; [done|by apply ascending_NoDup|].
  intros v2. rewrite sorted_perm, elem_of_elements, elem_of_distinct_fold.
  split; [|by right]. by intros [?%not_elem_of_empty|?].
Qed.

Lemma cross_distinct_key_contents_witness :
  Forall (has_field "party") example_members
  ∧ Forall (has_field "province") example_members
  ∧ ∃ results,
      cross_distinct_key "party" "province" example_members = Ok results
      ∧ ascending (keys results)
      ∧ (∀ v1, v1 ∈ keys results ↔ observed "party" v1 example_members)
      ∧ ∀ v1 l, (v1, l) ∈ results →
          ascending l ∧ NoDup l
          ∧ ∀ v2, v2 ∈ l ↔ ∃ d : record, d ∈ example_members
                       ∧ d !! "party" = Some v1 ∧ d !! "province" = Some v2.
Proof.
  assert (Forall (has_field "party") example_members) as H1.
  { repeat constructor; by eexists. }
  assert (Forall (has_field "province") example_members) as H2.
  { repeat constructor; by eexists. }
  split_and!; [exact H1|exact H2|].
  exact (cross_distinct_key_contents "party" "province" example_members H1 H2).
Defined.

(** C8: on a non-empty list of records in which some record lacks the
    field [key], every helper asked for [key] raises [KeyError] instead of
    returning a mapping, whether [key] is its only field, its primary field
    or its secondary field; the error names a field that is missing from a
    record, and nothing in the helpers catches it. *)
Theorem missing_field_raises (key other : string) (dict_list : list record)
    (sort_keys : bool) :
  dict_list ≠ [] →
  Exists (λ d : record, d !! key = None) dict_list →
  count_member key dict_list sort_keys = Raise (KeyError key)
  ∧ cross_count_member key other dict_list sort_keys = Raise (KeyError key)
  ∧ cross_distinct_key key other dict_list = Raise (KeyError key)
  ∧ (∃ k, Exists (λ d : record, d !! k = None) dict_list
       ∧ cross_count_member other key dict_list sort_keys
         = Raise (KeyError k))
  ∧ (∃ k, Exists (λ d : record, d !! k = None) dict_list
       ∧ cross_distinct_key other key dict_list = Raise (KeyError k)).
Proof.
  intros _ Hmiss.
  pose proof (unique_sorted_missing _ _ Hmiss) as Hkey.
  unfold count_member, cross_count_member.
  split_and!.
  - by rewrite Hkey.
  - by rewrite Hkey.
  - unfold cross_distinct_key. by rewrite Hkey.
  - destruct (has_or_missing other dict_list) as [Hall|Hother].
    + exists key. split; [done|].
      destruct (unique_sorted_ok _ _ Hall) as (uvs & -> & _).
      by rewrite bind_Ok, Hkey.
    + exists other. split; [done|].
      by rewrite (unique_sorted_missing _ _ Hother).
  - destruct (has_or_missing other dict_list) as [Hall|Hother].
    + exists key. split; [done|].
      by apply cross_distinct_key_missing_secondary.
    + exists other. split; [done|]. unfold cross_distinct_key.
      by rewrite (unique_sorted_missing _ _ Hother).
Qed.

Lemma missing_field_raises_witness :
  [member "A" "ON"; {["party" := "B"]}] ≠ []
  ∧ Exists (λ d : record, d !! "province" = None)
      [member "A" "ON"; {["party" := "B"]}]
  ∧ count_member "province" [member "A" "ON"; {["party" := "B"]}] true
    = Raise (KeyError "province")
  ∧ cross_count_member "province" "party"
      [member "A" "ON"; {["party" := "B"]}] true
    = Raise (KeyError "province")
  ∧ cross_distinct_key "province" "party"
      [member "A" "ON"; {["party" := "B"]}] = Raise (KeyError "province")
  ∧ (∃ k, Exists (λ d : record, d !! k = None)
            [member "A" "ON"; {["party" := "B"]}]
       ∧ cross_count_member "party" "province"
           [member "A" "ON"; {["party" := "B"]}] true = Raise (KeyError k))
  ∧ (∃ k, Exists (λ d : record, d !! k = None)
            [member "A" "ON"; {["party" := "B"]}]
       ∧ cross_distinct_key "party" "province"
           [member "A" "ON"; {["party" := "B"]}] = Raise (KeyError k)).
Proof.
  assert ([member "A" "ON"; {["party" := "B"]}] ≠ []) as Hne by done.
  assert (Exists (λ d : record, d !! "province" = None)
            [member "A" "ON"; {["party" := "B"]}]) as Hmiss.
  { right. left. reflexivity. }
  split_and!; [exact Hne|exact Hmiss|..];
    apply (missing_field_raises "province" "party"
             [member "A" "ON"; {["party" := "B"]}] true Hne Hmiss).
Defined.

(** C9: when every record has both fields, every distinct primary value
    has a nested mapping in the result of [cross_count_member], and the
    counts in that nested mapping add up to the count that [count_member]
    gives the value. *)
Theorem cross_count_partitions (key1 key2 : string) (dict_list : list record)
    (sort_keys sort_keys' : bool) :
  Forall (has_field key1) dict_list →
  Forall (has_field key2) dict_list →
  ∃ cross single,
    cross_count_member key1 key2 dict_list sort_keys = Ok cross
    ∧ count_member key1 dict_list sort_keys' = Ok single
    ∧ (∀ v1, observed key1 v1 dict_list →
         ∃ nested, dict_get cross v1 = Some nested
           ∧ (v1, nested) ∈ cross
           ∧ dict_get single v1 = Some (sum_list (values nested)))
    ∧ ∀ v1 nested, (v1, nested) ∈ cross →
        dict_get single v1 = Some (sum_list (values nested)).
Proof.
  intros H1 H2.
  destruct (cross_count_member_table key1 key2 dict_list sort_keys H1 H2)
    as (uvs1 & uvs2 & Hasc1 & Hasc2 & Hobs1 & Hobs2 & Hcross).
  destruct (count_member_lookup key1 dict_list sort_keys' H1)
    as (single & Hsingle & Hget).
  eexists _, single. split_and!; [exact Hcross|exact Hsingle| |].
  2:{ intros v1 nested (uv1 & [= -> ->] & Hin)%list_elem_of_fmap.
      rewrite Hget by by apply Hobs1. f_equal.
      destruct (cross_count_fold sort_keys
        (λ uv2, cooccurrences key1 key2 uv1 uv2 dict_list) uvs2)
        as (Hperm & _).
      { by apply ascending_NoDup. }
      unfold values at 1. rewrite Hperm.
      fold (values (cross_row
        (λ uv2, cooccurrences key1 key2 uv1 uv2 dict_list) uvs2)).
      rewrite sum_values_cross_row. symmetry.
      apply sum_cooccurrences; [by apply ascending_NoDup| |done].
      by intros v ?%Hobs2. }
  intros v1 Hv1. pose proof Hv1 as Hin%Hobs1.
  eexists. split_and!.
  - exact (dict_get_tabulate (λ uv1, foldl (cross_count_step sort_keys
      (λ uv2, cooccurrences key1 key2 uv1 uv2 dict_list)) [] uvs2)
      uvs1 v1 Hin).
  - apply list_elem_of_fmap. by exists v1.
  - rewrite Hget by done. f_equal.
    destruct (cross_count_fold sort_keys
      (λ uv2, cooccurrences key1 key2 v1 uv2 dict_list) uvs2) as (Hperm & _).
    { by apply ascending_NoDup. }
    unfold values at 1. rewrite Hperm.
    fold (values (cross_row
      (λ uv2, cooccurrences key1 key2 v1 uv2 dict_list) uvs2)).
    rewrite sum_values_cross_row. symmetry.
    apply sum_cooccurrences; [by apply ascending_NoDup| |done].
    by intros v ?%Hobs2.
Qed.

Lemma cross_count_partitions_witness :
  Forall (has_field "party") example_members
  ∧ Forall (has_field "province") example_members
  ∧ ∃ cross single,
      cross_count_member "party" "province" example_members true = Ok cross
      ∧ count_member "party" example_members false = Ok single
      ∧ (∀ v1, observed "party" v1 example_members →
           ∃ nested, dict_get cross v1 = Some nested
             ∧ (v1, nested) ∈ cross
             ∧ dict_get single v1 = Some (sum_list (values nested)))
      ∧ ∀ v1 nested, (v1, nested) ∈ cross →
          dict_get single v1 = Some (sum_list (values nested)).
Proof.
  assert (Forall (has_field "party") example_members) as H1.
  { repeat constructor; by eexists. }
  assert (Forall (has_field "province") example_members) as H2.
  { repeat constructor; by eexists. }
  split_and!; [exact H1|exact H2|].
  exact (cross_count_partitions "party" "province" example_members true false
           H1 H2).
Defined.

(** C10: when every record has the field, the ordering flag of
    [count_member] changes only the order of the returned mapping: both
    results hold the same pairs of a value and its count. *)
Theorem count_member_flag_order_only (key : string) (dict_list : list record) :
  Forall (has_field key) dict_list →
  ∃ by_key by_count,
    count_member key dict_list true = Ok by_key
    ∧ count_member key dict_list false = Ok by_count
    ∧ by_key ≡ₚ by_count
    ∧ ∀ v, dict_get by_key v = dict_get by_count v.
Proof.
  intros Hall.
  destruct (count_member_table key dict_list Hall)
    as (uvs & Hasc & Hobs & Heq).
  eexists _, _. split_and!; [exact (Heq true)|exact (Heq false)| |].
  - by rewrite sorted_by_count_desc_perm.
  - intros v. apply dict_get_perm.
    + rewrite keys_tabulate. by apply ascending_NoDup.
    + by rewrite sorted_by_count_desc_perm.
Qed.

Lemma count_member_flag_order_only_witness :
  Forall (has_field "party") example_members
  ∧ ∃ by_key by_count,
      count_member "party" example_members true = Ok by_key
      ∧ count_member "party" example_members false = Ok by_count
      ∧ by_key ≡ₚ by_count
      ∧ ∀ v, dict_get by_key v = dict_get by_count v.
Proof.
  assert (Forall (has_field "party") example_members) as Hall.
  { repeat constructor; by eexists. }
  split; [exact Hall|].
  exact (count_member_flag_order_only "party" example_members Hall).
Defined.

(** * The script *)

Example extract_id_example :
  make_member example_tile !! "ID" = Some "89156".
Proof. vm_compute. reflexivity. Qed.

Example img_file_example :
  img_file (make_member example_tile) = Ok "Ziad-Aboultaif.jpg".
Proof. vm_compute. reflexivity. Qed.

Example column_width_example : column_width ["ID"; "89156"; "105"] = 6.
Proof. reflexivity. Qed.

Example column_width_accent :
  column_width ["Full Name"; "Stéphane Bergeron"] = 18.
Proof. vm_compute. reflexivity. Qed.

(** * Further properties of the three helpers *)

Lemma ascending_unique (l l' : list string) :
  ascending l → ascending l' → (∀ v, v ∈ l ↔ v ∈ l') → l = l'.
Proof.
  intros Hl Hl' Hiff.
  apply (StronglySorted_unique_strong (λ a b, String.ltb a b = true));
    [|done|done|].
  - intros a b _ _ Hab Hba. apply ltb_asym in Hab. congruence.
  - apply NoDup_Permutation; [by apply ascending_NoDup..|done].
Qed.

Lemma occurrences_pos (key v : string) (dl : list record) :
  observed key v dl ↔ 0 < occurrences key v dl.
Proof.
  unfold observed. induction dl as [|d dl IH].
  - split; [by intros (d & Hd%elem_of_nil & _)|unfold occurrences; simpl; lia].
  - rewrite occurrences_cons. destruct (decide (d !! key = Some v)) as [Hd|Hd].
    + split; [lia|]. intros _. exists d. split; [left|done].
    + rewrite <- IH. split.
      * intros (d' & [->|Hin]%elem_of_cons & Hd'); [done|by exists d'].
      * intros (d' & Hin & Hd'). exists d'. split; [by right|done].
Qed.

Lemma count_member_pairs (key : string) (dict_list : list record)
    (sort_keys : bool) :
  Forall (has_field key) dict_list →
  ∃ results, count_member key dict_list sort_keys = Ok results
    ∧ NoDup (keys results)
    ∧ (∀ v n, (v, n) ∈ results
              ↔ observed key v dict_list ∧ n = occurrences key v dict_list)
    ∧ ∀ v n, (v, n) ∈ results → 0 < n.
Proof.
  intros Hall.
  destruct (count_member_table key dict_list Hall)
    as (uvs & Hasc & Hobs & Heq).
  eexists. split; [exact (Heq sort_keys)|].
  assert ((if sort_keys
           then (λ uv, (uv, occurrences key uv dict_list)) <$> uvs
           else sorted_by_count_desc
                  ((λ uv, (uv, occurrences key uv dict_list)) <$> uvs))
          ≡ₚ (λ uv, (uv, occurrences key uv dict_list)) <$> uvs) as Hperm.
  { destruct sort_keys; [done|apply sorted_by_count_desc_perm]. }
  assert (∀ v n, (v, n) ∈ (if sort_keys
           then (λ uv, (uv, occurrences key uv dict_list)) <$> uvs
           else sorted_by_count_desc
                  ((λ uv, (uv, occurrences key uv dict_list)) <$> uvs))
          ↔ observed key v dict_list ∧ n = occurrences key v dict_list)
    as Hiff.
  { intros v n. rewrite Hperm, list_elem_of_fmap, <- Hobs. split.
    - by intros (uv & [= -> ->] & Hin).
    - intros [Hin ->]. by exists v. }
  split_and!; [|done|].
  - unfold keys. rewrite Hperm.
    fold (keys ((λ uv, (uv, occurrences key uv dict_list)) <$> uvs)).
    rewrite keys_tabulate. by apply ascending_NoDup.
  - intros v n [Hv ->]%Hiff. by apply occurrences_pos.
Qed.

(** X1: when every record has the field, [count_member] lists each
    observed value exactly once, with the number of records that carry it;
    no count is zero. *)
Theorem count_member_contents (key : string) (dict_list : list record)
    (sort_keys : bool) :
  Forall (has_field key) dict_list →
  ∃ results, count_member key dict_list sort_keys = Ok results
    ∧ NoDup (keys results)
    ∧ (∀ v n, (v, n) ∈ results
              ↔ observed key v dict_list ∧ n = occurrences key v dict_list)
    ∧ ∀ v n, (v, n) ∈ results → 0 < n.
Proof. apply count_member_pairs. Qed.

Lemma count_member_contents_witness :
  Forall (has_field "province") example_members
  ∧ ∃ results, count_member "province" example_members false = Ok results
      ∧ NoDup (keys results)
      ∧ (∀ v n, (v, n) ∈ results
           ↔ observed "province" v example_members
             ∧ n = occurrences "province" v example_members)
      ∧ ∀ v n, (v, n) ∈ results → 0 < n.
Proof.
  assert (Forall (has_field "province") example_members) as Hall.
  { repeat constructor; by eexists. }
  split; [exact Hall|].
  exact (count_member_contents "province" example_members false Hall).
Defined.

(** ** The order among equal counts *)

(** A stable sort by descending count leaves values with equal counts in
    the order they had. *)
Lemma sorted_by_count_desc_ties (items : list (string * nat)) :
  StronglySorted (λ a b : string * nat,
    a.2 = b.2 → String.ltb a.1 b.1 = true) items →
  StronglySorted count_then_value (sorted_by_count_desc items).
Proof.
  unfold sorted_by_count_desc.
  induction 1 as [|x l Hl IH Hx]; simpl; [constructor|].
  assert (Forall (λ b : string * nat, x.2 = b.2 → String.ltb x.1 b.1 = true)
            (sorted_by (λ a b : string * nat, b.2 <? a.2) l)) as Hx'.
  { by rewrite sorted_by_perm. }
  clear Hx Hl.
  induction IH as [|y l' Hl' IH' Hy]; simpl; [repeat constructor|].
  apply Forall_cons in Hx' as [Hxy Hx'].
  destruct (x.2 <? y.2) eqn:E.
  - apply Nat.ltb_lt in E. constructor; [by apply IH'|].
    rewrite sort_insert_perm. constructor; [by left|done].
  - apply Nat.ltb_ge in E.
    assert (count_then_value x y) as Rxy.
    { unfold count_then_value.
      destruct (decide (y.2 = x.2)) as [Heq|Hne]; [right|left; lia].
      split; [done|]. by apply Hxy. }
    constructor; [by constructor|]. constructor; [done|].
    apply Forall_forall. intros z Hz.
    eapply Forall_forall in Hy; [|done]. eapply Forall_forall in Hx'; [|done].
    unfold count_then_value in *.
    destruct (decide (z.2 = x.2)) as [Heq|Hne]; [right|left].
    + split; [done|]. by apply Hx'.
    + destruct Hy as [?|[? _]]; lia.
Qed.

Lemma ascending_ties (f : string → nat) (uvs : list string) :
  ascending uvs →
  StronglySorted (λ a b : string * nat,
    a.2 = b.2 → String.ltb a.1 b.1 = true) ((λ uv, (uv, f uv)) <$> uvs).
Proof.
  induction 1 as [|x l Hl IH Hx]; csimpl; [constructor|].
  constructor; [done|]. apply Forall_fmap.
  eapply Forall_impl; [exact Hx|]. by intros y Hy _.
Qed.

(** X2: with the alternate flag, [count_member] lists the larger counts
    first, and values with equal counts in ascending order: the order of
    the result is fully determined. *)
Theorem count_member_ties (key : string) (dict_list : list record) :
  Forall (has_field key) dict_list →
  ∃ results, count_member key dict_list false = Ok results
    ∧ StronglySorted count_then_value results.
Proof.
  intros Hall.
  destruct (count_member_table key dict_list Hall)
    as (uvs & Hasc & Hobs & Heq).
  eexists. split; [exact (Heq false)|].
  by apply sorted_by_count_desc_ties, ascending_ties.
Qed.

Lemma count_member_ties_witness :
  Forall (has_field "party") (member "B" "QC" :: example_members)
  ∧ ∃ results,
      count_member "party" (member "B" "QC" :: example_members) false
      = Ok results
      ∧ StronglySorted count_then_value results.
Proof.
  assert (Forall (has_field "party") (member "B" "QC" :: example_members))
    as Hall.
  { repeat constructor; by eexists. }
  split; [exact Hall|].
  exact (count_member_ties "party" (member "B" "QC" :: example_members) Hall).
Defined.





(** X4: the ordering flag of [cross_count_member] leaves the outer mapping
    as it is and only reorders the nested mappings: the two results have
    the same primary values in the same order, each with the same pairs of
    a secondary value and its count. *)
Theorem cross_count_member_flag_order_only (key1 key2 : string)
    (dict_list : list record) :
  Forall (has_field key1) dict_list →
  Forall (has_field key2) dict_list →
  ∃ by_key by_count,
    cross_count_member key1 key2 dict_list true = Ok by_key
    ∧ cross_count_member key1 key2 dict_list false = Ok by_count
    ∧ Forall2 (λ a b : string * list (string * nat), a.1 = b.1 ∧ a.2 ≡ₚ b.2)
        by_key by_count.
Proof.
  intros H1 H2.
  destruct (cross_count_member_table key1 key2 dict_list true H1 H2)
    as (uvs1 & uvs2 & Hasc1 & Hasc2 & Hobs1 & Hobs2 & Htrue).
  destruct (cross_count_member_table key1 key2 dict_list false H1 H2)
    as (uvs1' & uvs2' & Hasc1' & Hasc2' & Hobs1' & Hobs2' & Hfalse).
  assert (uvs1' = uvs1) as ->.
  { apply ascending_unique; [done..|]. intros v. by rewrite Hobs1, Hobs1'. }
  assert (uvs2' = uvs2) as ->.
  { apply ascending_unique; [done..|]. intros v. by rewrite Hobs2, Hobs2'. }
  eexists _, _. split_and!; [exact Htrue|exact Hfalse|].
  apply Forall2_fmap, Forall_Forall2_diag, Forall_forall.
  intros uv1 _. simpl. split; [done|].
  destruct (cross_count_fold true
    (λ uv2, cooccurrences key1 key2 uv1 uv2 dict_list) uvs2) as (Hp & _).
  { by apply ascending_NoDup. }
  destruct (cross_count_fold false
    (λ uv2, cooccurrences key1 key2 uv1 uv2 dict_list) uvs2) as (Hp' & _).
  { by apply ascending_NoDup. }
  by rewrite Hp, Hp'.
Qed.

Lemma cross_count_member_flag_order_only_witness :
  Forall (has_field "province") example_members
  ∧ Forall (has_field "party") example_members
  ∧ ∃ by_key by_count,
      cross_count_member "province" "party" example_members true = Ok by_key
      ∧ cross_count_member "province" "party" example_members false
        = Ok by_count
      ∧ Forall2 (λ a b : string * list (string * nat),
                   a.1 = b.1 ∧ a.2 ≡ₚ b.2) by_key by_count.
Proof.
  assert (Forall (has_field "province") example_members) as H1.
  { repeat constructor; by eexists. }
  assert (Forall (has_field "party") example_members) as H2.
  { repeat constructor; by eexists. }
  split_and!; [exact H1|exact H2|].
  exact (cross_count_member_flag_order_only "province" "party"
           example_members H1 H2).
Defined.

Lemma cooccurrences_pos_iff (key1 key2 v1 v2 : string) (dl : list record) :
  0 < cooccurrences key1 key2 v1 v2 dl
  ↔ ∃ d : record, d ∈ dl ∧ d !! key1 = Some v1 ∧ d !! key2 = Some v2.
Proof.
  split; [apply cooccurrences_pos|].
  intros (d & Hin & Hk1 & Hk2). induction dl as [|d' dl IH].
  - by apply elem_of_nil in Hin.
  - rewrite cooccurrences_cons.
    apply elem_of_cons in Hin as [->|Hin].
    + rewrite decide_True by done. lia.
    + specialize (IH Hin). lia.
Qed.

(** X5: the lists of [cross_distinct_key] are the keys of the nested
    mappings that [cross_count_member] returns with the default flag, for
    the same primary values in the same order. *)
Theorem cross_distinct_key_keys (key1 key2 : string)
    (dict_list : list record) :
  Forall (has_field key1) dict_list →
  Forall (has_field key2) dict_list →
  ∃ cross lists,
    cross_count_member key1 key2 dict_list true = Ok cross
    ∧ cross_distinct_key key1 key2 dict_list = Ok lists
    ∧ lists = (λ entry : string * list (string * nat),
                 (entry.1, keys entry.2)) <$> cross.
Proof.
  intros H1 H2.
  destruct (cross_count_member_table key1 key2 dict_list true H1 H2)
    as (uvs1 & uvs2 & Hasc1 & Hasc2 & Hobs1 & Hobs2 & Hcross).
  destruct (cross_distinct_key_table key1 key2 dict_list H1 H2)
    as (uvs1' & Hasc1' & Hobs1' & Hlists).
  assert (uvs1' = uvs1) as ->.
  { apply ascending_unique; [done..|]. intros v. by rewrite Hobs1, Hobs1'. }
  eexists _, _. split_and!; [exact Hcross|exact Hlists|].
  rewrite <- list_fmap_compose. apply list_fmap_ext. intros _ uv1 _. simpl.
  f_equal.
  destruct (cross_count_fold true
    (λ uv2, cooccurrences key1 key2 uv1 uv2 dict_list) uvs2)
    as (_ & Hdef & _); [by apply ascending_NoDup|].
  rewrite Hdef by done. apply ascending_unique.
  - apply sorted_ascending, NoDup_elements.
  - by apply ascending_keys_cross_row.
  - intros v2.
    rewrite sorted_perm, elem_of_elements, elem_of_distinct_fold.
    unfold keys. rewrite list_elem_of_fmap. split.
    + intros [?%not_elem_of_empty|Hd]; [done|].
      exists (v2, cooccurrences key1 key2 uv1 v2 dict_list).
      split; [done|]. apply elem_of_cross_row. split_and!; [|done|].
      * destruct Hd as (d & Hin & _ & Hk2). apply Hobs2. by exists d.
      * by apply cooccurrences_pos_iff.
    + intros ([v c] & -> & (_ & -> & Hpos)%elem_of_cross_row). right.
      by apply cooccurrences_pos_iff.
Qed.

Lemma cross_distinct_key_keys_witness :
  Forall (has_field "party") example_members
  ∧ Forall (has_field "province") example_members
  ∧ ∃ cross lists,
      cross_count_member "party" "province" example_members true = Ok cross
      ∧ cross_distinct_key "party" "province" example_members = Ok lists
      ∧ lists = (λ entry : string * list (string * nat),
                   (entry.1, keys entry.2)) <$> cross.
Proof.
  assert (Forall (has_field "party") example_members) as H1.
  { repeat constructor; by eexists. }
  assert (Forall (has_field "province") example_members) as H2.
  { repeat constructor; by eexists. }
  split_and!; [exact H1|exact H2|].
  exact (cross_distinct_key_keys "party" "province" example_members H1 H2).
Defined.

(** ** The order of the records does not matter *)

Lemma observed_perm (key v : string) (dl dl' : list record) :
  dl ≡ₚ dl' → observed key v dl ↔ observed key v dl'.
Proof.
  intros Hp. unfold observed. split; intros (d & Hin & Hd); exists d.
  - by rewrite <- Hp.
  - by rewrite Hp.
Qed.

Lemma occurrences_perm (key v : string) (dl dl' : list record) :
  dl ≡ₚ dl' → occurrences key v dl = occurrences key v dl'.
Proof. intros Hp. unfold occurrences. by rewrite Hp. Qed.

Lemma cooccurrences_perm (key1 key2 v1 v2 : string) (dl dl' : list record) :
  dl ≡ₚ dl' →
  cooccurrences key1 key2 v1 v2 dl = cooccurrences key1 key2 v1 v2 dl'.
Proof. intros Hp. unfold cooccurrences. by rewrite Hp. Qed.

Lemma missing_perm (key : string) (dl dl' : list record) :
  dl ≡ₚ dl' →
  Exists (λ d : record, d !! key = None) dl →
  Exists (λ d : record, d !! key = None) dl'.
Proof.
  intros Hp (d & Hin & Hd)%Exists_exists. apply Exists_exists.
  exists d. by rewrite <- Hp.
Qed.

Lemma has_field_perm (key : string) (dl dl' : list record) :
  dl ≡ₚ dl' → Forall (has_field key) dl → Forall (has_field key) dl'.
Proof. intros Hp. by rewrite Hp. Qed.

Lemma unique_sorted_perm (key : string) (dl dl' : list record) :
  dl ≡ₚ dl' → unique_sorted key dl = unique_sorted key dl'.
Proof.
  intros Hp. destruct (has_or_missing key dl) as [Hall|Hmiss].
  - destruct (unique_sorted_ok _ _ Hall) as (uvs & -> & Hasc & Hobs).
    destruct (unique_sorted_ok _ _ (has_field_perm _ _ _ Hp Hall))
      as (uvs' & -> & Hasc' & Hobs').
    f_equal. apply ascending_unique; [done..|].
    intros v. by rewrite Hobs, Hobs', (observed_perm _ _ _ _ Hp).
  - by rewrite !unique_sorted_missing by eauto using missing_perm.
Qed.

(** X6: [count_member] returns the same result, or raises the same error,
    when the records come in another order. *)
Theorem count_member_perm (key : string) (dict_list dict_list' : list record)
    (sort_keys : bool) :
  dict_list ≡ₚ dict_list' →
  count_member key dict_list sort_keys = count_member key dict_list' sort_keys.
Proof.
  intros Hp. destruct (has_or_missing key dict_list) as [Hall|Hmiss].
  - destruct (count_member_table key dict_list Hall)
      as (uvs & Hasc & Hobs & ->).
    destruct (count_member_table key dict_list' (has_field_perm _ _ _ Hp Hall))
      as (uvs' & Hasc' & Hobs' & ->).
    assert (uvs' = uvs) as ->.
    { apply ascending_unique; [done..|].
      intros v. by rewrite Hobs, Hobs', (observed_perm _ _ _ _ Hp). }
    assert ((λ uv, (uv, occurrences key uv dict_list)) <$> uvs
            = (λ uv, (uv, occurrences key uv dict_list')) <$> uvs) as ->.
    { apply list_fmap_ext. intros _ uv _.
      by rewrite (occurrences_perm _ _ _ _ Hp). }
    done.
  - unfold count_member.
    by rewrite !unique_sorted_missing by eauto using missing_perm.
Qed.

Lemma count_member_perm_witness :
  example_members ≡ₚ reverse example_members
  ∧ count_member "party" example_members false
    = count_member "party" (reverse example_members) false.
Proof.
  assert (example_members ≡ₚ reverse example_members) as Hp.
  { symmetry. apply reverse_Permutation. }
  split; [exact Hp|].
  exact (count_member_perm "party" example_members (reverse example_members)
           false Hp).
Defined.

Lemma foldl_cross_count_step_ext (sort_keys : bool) (f g : string → nat)
    (cc : pydict nat) (uvs2 : list string) :
  (∀ uv2, f uv2 = g uv2) →
  foldl (cross_count_step sort_keys f) cc uvs2
  = foldl (cross_count_step sort_keys g) cc uvs2.
Proof.
  intros Hfg. revert cc. induction uvs2 as [|x l IH]; intros cc; [done|].
  simpl. rewrite IH. unfold cross_count_step. by rewrite Hfg.
Qed.

(** X7: [cross_count_member] returns the same result, or raises the same
    error, when the records come in another order. *)
Theorem cross_count_member_perm (key1 key2 : string)
    (dict_list dict_list' : list record) (sort_keys : bool) :
  dict_list ≡ₚ dict_list' →
  cross_count_member key1 key2 dict_list sort_keys
  = cross_count_member key1 key2 dict_list' sort_keys.
Proof.
  intros Hp.
  destruct (has_or_missing key1 dict_list) as [H1|Hmiss1];
    [destruct (has_or_missing key2 dict_list) as [H2|Hmiss2]|].
  - pose proof (has_field_perm _ _ _ Hp H1) as H1'.
    pose proof (has_field_perm _ _ _ Hp H2) as H2'.
    destruct (cross_count_member_table key1 key2 dict_list sort_keys H1 H2)
      as (uvs1 & uvs2 & Hasc1 & Hasc2 & Hobs1 & Hobs2 & ->).
    destruct (cross_count_member_table key1 key2 dict_list' sort_keys H1' H2')
      as (uvs1' & uvs2' & Hasc1' & Hasc2' & Hobs1' & Hobs2' & ->).
    assert (uvs1' = uvs1) as ->.
    { apply ascending_unique; [done..|].
      intros v. by rewrite Hobs1, Hobs1', (observed_perm _ _ _ _ Hp). }
    assert (uvs2' = uvs2) as ->.
    { apply ascending_unique; [done..|].
      intros v. by rewrite Hobs2, Hobs2', (observed_perm _ _ _ _ Hp). }
    f_equal. apply list_fmap_ext. intros _ uv1 _. f_equal.
    apply foldl_cross_count_step_ext. intros uv2.
    by apply cooccurrences_perm.
  - unfold cross_count_member.
    rewrite (unique_sorted_perm key1 _ _ Hp), (unique_sorted_perm key2 _ _ Hp).
    rewrite (unique_sorted_missing key2 dict_list')
      by eauto using missing_perm.
    by destruct (unique_sorted key1 dict_list').
  - unfold cross_count_member.
    by rewrite !(unique_sorted_missing key1) by eauto using missing_perm.
Qed.

Lemma cross_count_member_perm_witness :
  example_members ≡ₚ reverse example_members
  ∧ cross_count_member "province" "party" example_members false
    = cross_count_member "province" "party" (reverse example_members) false.
Proof.
  assert (example_members ≡ₚ reverse example_members) as Hp.
  { symmetry. apply reverse_Permutation. }
  split; [exact Hp|].
  exact (cross_count_member_perm "province" "party" example_members
           (reverse example_members) false Hp).
Defined.

(** X8: [cross_distinct_key] returns the same result, or raises the same
    error, when the records come in another order. *)
Theorem cross_distinct_key_perm (key1 key2 : string)
    (dict_list dict_list' : list record) :
  dict_list ≡ₚ dict_list' →
  cross_distinct_key key1 key2 dict_list
  = cross_distinct_key key1 key2 dict_list'.
Proof.
  intros Hp.
  destruct (has_or_missing key1 dict_list) as [H1|Hmiss1];
    [destruct (has_or_missing key2 dict_list) as [H2|Hmiss2]|].
  - pose proof (has_field_perm _ _ _ Hp H1) as H1'.
    pose proof (has_field_perm _ _ _ Hp H2) as H2'.
    destruct (cross_distinct_key_table key1 key2 dict_list H1 H2)
      as (uvs1 & Hasc1 & Hobs1 & ->).
    destruct (cross_distinct_key_table key1 key2 dict_list' H1' H2')
      as (uvs1' & Hasc1' & Hobs1' & ->).
    assert (uvs1' = uvs1) as ->.
    { apply ascending_unique; [done..|].
      intros v. by rewrite Hobs1, Hobs1', (observed_perm _ _ _ _ Hp). }
    f_equal. apply list_fmap_ext. intros _ uv1 _. do 3 f_equal.
    apply set_eq. intros v2. rewrite !elem_of_distinct_fold.
    split; (intros [?|(d & Hin & Hd)]; [by left|right]); exists d.
    + by rewrite <- Hp.
    + by rewrite Hp.
  - rewrite !cross_distinct_key_missing_secondary
      by eauto using missing_perm, has_field_perm. done.
  - unfold cross_distinct_key.
    by rewrite !(unique_sorted_missing key1) by eauto using missing_perm.
Qed.

Lemma cross_distinct_key_perm_witness :
  example_members ≡ₚ reverse example_members
  ∧ cross_distinct_key "party" "province" example_members
    = cross_distinct_key "party" "province" (reverse example_members).
Proof.
  assert (example_members ≡ₚ reverse example_members) as Hp.
  { symmetry. apply reverse_Permutation. }
  split; [exact Hp|].
  exact (cross_distinct_key_perm "party" "province" example_members
           (reverse example_members) Hp).
Defined.

(** * The script: reading a tile *)

Lemma bytes_app (s t : string) :
  String.list_ascii_of_string (s +:+ t)
  = String.list_ascii_of_string s ++ String.list_ascii_of_string t.
Proof. induction s as [|a s IH]; simpl; [done|]. by rewrite IH. Qed.

Lemma append_cons (a : Ascii.ascii) (s t : string) :
  String a s +:+ t = String a (s +:+ t).
Proof. reflexivity. Qed.

Lemma append_assoc (s t u : string) : (s +:+ t) +:+ u = s +:+ t +:+ u.
Proof.
  induction s as [|a s IH]; [done|]. by rewrite !append_cons, IH.
Qed.

Lemma append_empty_r (s : string) : s +:+ "" = s.
Proof. induction s as [|a s IH]; [done|]. by rewrite append_cons, IH. Qed.

Lemma absorb_join (cs : list string) :
  (absorb cs).1 +:+ join (absorb cs).2 = join cs.
Proof.
  induction cs as [|c cs IH]; simpl; [done|].
  destruct (continuation_char c); simpl; [|done].
  by rewrite append_assoc, IH.
Qed.

(** The characters of a string, put together again, are the string. *)
Lemma join_chars (s : string) : join (chars s) = s.
Proof.
  induction s as [|b s IH]; simpl; [done|].
  destruct (lead b); simpl; rewrite append_cons; [|by rewrite IH].
  by rewrite absorb_join, IH.
Qed.

Lemma absorb_app (cs ct : list string) :
  (∀ c, head ct = Some c → continuation_char c = false) →
  absorb (cs ++ ct) = ((absorb cs).1, (absorb cs).2 ++ ct).
Proof.
  intros Hct. induction cs as [|c cs IH]; simpl.
  - destruct ct as [|c ct]; [done|]. simpl. by rewrite Hct.
  - destruct (continuation_char c); [|done]. by rewrite IH.
Qed.

Lemma head_chars (b : Ascii.ascii) (t : string) (c : string) :
  continuation b = false →
  head (chars (String b t)) = Some c → continuation_char c = false.
Proof.
  intros Hb. simpl. destruct (lead b); simpl; intros [= <-]; simpl.
  - by destruct (absorb (chars t)).1.
  - done.
Qed.

(** A string that starts a new character keeps its characters behind any
    other string. *)
Lemma chars_app (s t : string) :
  (∀ b t', t = String b t' → continuation b = false) →
  chars (s +:+ t) = chars s ++ chars t.
Proof.
  intros Ht. induction s as [|b s IH]; [done|].
  rewrite append_cons. simpl. rewrite IH.
  destruct (lead b); [|done].
  rewrite absorb_app; [done|].
  destruct t as [|b' t']; [done|]. intros c. apply head_chars. by eapply Ht.
Qed.

Lemma chars_bytes (s c : string) (b : Ascii.ascii) :
  c ∈ chars s → b ∈ String.list_ascii_of_string c →
  b ∈ String.list_ascii_of_string s.
Proof.
  intros Hc Hb. rewrite <- (join_chars s).
  induction (chars s) as [|c' cs IH]; [by apply elem_of_nil in Hc|].
  simpl. rewrite bytes_app. apply elem_of_app.
  apply elem_of_cons in Hc as [->|Hc]; [by left|right; by apply IH].
Qed.

Lemma index_fresh {A : Type} `{EqDecision A} (x : A) (l r : list A) :
  x ∉ l → index x (l ++ x :: r) = Some (length l).
Proof.
  induction l as [|y l IH]; simpl.
  - intros _. by rewrite decide_True.
  - intros [Hne Hl]%not_elem_of_cons.
    rewrite decide_False by done. by rewrite IH.
Qed.

Lemma index_absent {A : Type} `{EqDecision A} (x : A) (l : list A) :
  x ∉ l → index x l = None.
Proof.
  induction l as [|y l IH]; simpl; [done|].
  intros [Hne Hl]%not_elem_of_cons.
  rewrite decide_False by done. by rewrite IH.
Qed.

Lemma chars_bracket (pre rest : string) :
  chars (pre +:+ "(" +:+ rest) = chars pre ++ "(" :: chars rest.
Proof.
  rewrite chars_app; [done|]. by intros b t' [= <- _].
Qed.

Lemma chars_last (s last : string) :
  character last → chars (s +:+ last) = chars s ++ [last].
Proof.
  intros [Hone (b & tail & -> & Hb)]. rewrite chars_app, Hone; [done|].
  by intros b' t' [= <- _].
Qed.

(** The slice from a position to the last character exclusive. *)
Lemma slice_to_last (s : string) (l1 l2 : list string) (c : string) :
  chars s = l1 ++ l2 ++ [c] →
  slice s (Z.of_nat (length l1)) (-1) = join l2.
Proof.
  intros Hs. unfold slice, len. rewrite Hs, !length_app. simpl length.
  unfold slice_index.
  destruct (Z.ltb_spec (Z.of_nat (length l1)) 0) as [?|_]; [lia|].
  destruct (Z.ltb_spec (-1) 0) as [_|?]; [|lia].
  match goal with
  | |- context [take ?x (drop ?y _)] =>
      replace x with (length l2) by lia;
      replace y with (length l1) by lia
  end.
  by rewrite drop_app_length, take_app_length.
Qed.

Lemma extract_id_bracket (pre id last : string) :
  "(" ∉ chars pre → character last →
  extract_id (pre +:+ "(" +:+ id +:+ last) = id.
Proof.
  intros Hpre Hlast. unfold extract_id, find.
  assert (chars (pre +:+ "(" +:+ id +:+ last)
          = (chars pre ++ ["("]) ++ chars id ++ [last]) as Hs.
  { rewrite chars_bracket, chars_last by done. by rewrite <- app_assoc. }
  rewrite Hs at 1. rewrite <- app_assoc. simpl app.
  rewrite index_fresh by done.
  replace (Z.of_nat (length (chars pre)) + 1)%Z
    with (Z.of_nat (length (chars pre ++ ["("])))
    by (rewrite length_app; simpl; lia).
  rewrite (slice_to_last _ _ _ _ Hs). apply join_chars.
Qed.

(** X9: the ID is what stands between the first opening bracket of the
    URL and its last character: a URL that ends in [(id] and one more
    character, of one byte or of several, gives back [id], whatever [id]
    contains, when no bracket opens before it. *)
Theorem extract_id_round_trip (pre id last : string) :
  "(" ∉ chars pre →
  character last →
  extract_id (pre +:+ "(" +:+ id +:+ last) = id.
Proof. apply extract_id_bracket. Qed.

Lemma extract_id_round_trip_witness :
  ("(" ∉ chars "https://www.ourcommons.ca/Members/en/sébastien-lemire")
  ∧ character "é"
  ∧ extract_id ("https://www.ourcommons.ca/Members/en/sébastien-lemire"
                +:+ "(" +:+ "104630" +:+ "é")
    = "104630".
Proof.
  assert ("(" ∉ chars "https://www.ourcommons.ca/Members/en/sébastien-lemire")
    as Hpre.
  { apply (bool_decide_unpack _). vm_compute. reflexivity. }
  assert (character "é") as Hlast.
  { split; [vm_compute; reflexivity|]. eexists _, _. split; reflexivity. }
  split_and!; [exact Hpre|exact Hlast|].
  exact (extract_id_round_trip
           "https://www.ourcommons.ca/Members/en/sébastien-lemire"
           "104630" "é" Hpre Hlast).
Defined.

(** X10: a URL without an opening bracket is not rejected: [find] answers
    -1, the slice starts at 0, and the ID is the URL without its last
    character. *)
Theorem extract_id_no_bracket (body last : string) :
  character last →
  "(" ∉ chars (body +:+ last) →
  extract_id (body +:+ last) = body.
Proof.
  intros Hlast Habs. unfold extract_id, find.
  rewrite index_absent by done.
  assert (chars (body +:+ last) = [] ++ chars body ++ [last]) as Hs.
  { by rewrite chars_last. }
  change (-1 + 1)%Z with (Z.of_nat (length (@nil string))).
  rewrite (slice_to_last _ _ _ _ Hs). apply join_chars.
Qed.

Lemma extract_id_no_bracket_witness :
  character "é"
  ∧ ("(" ∉ chars ("/Members/en/andr" +:+ "é"))
  ∧ extract_id ("/Members/en/andr" +:+ "é") = "/Members/en/andr".
Proof.
  assert (character "é") as Hlast.
  { split; [vm_compute; reflexivity|]. eexists _, _. split; reflexivity. }
  assert ("(" ∉ chars ("/Members/en/andr" +:+ "é")) as Habs.
  { apply (bool_decide_unpack _). vm_compute. reflexivity. }
  split_and!; [exact Hlast|exact Habs|].
  exact (extract_id_no_bracket "/Members/en/andr" "é" Hlast Habs).
Defined.

Example extract_id_accent : extract_id "x(12é" = "12".
Proof. vm_compute. reflexivity. Qed.

Example len_accent : len "Stéphane Bergeron" = 17.
Proof. vm_compute. reflexivity. Qed.

(** * The script: records, rows and columns *)

Lemma make_member_fields (t : tile) :
  make_member t !! "ID" = Some (extract_id (baseURL +:+ href t))
  ∧ make_member t !! "fullname" = Some (name_text t)
  ∧ make_member t !! "party" = Some (party_text t)
  ∧ make_member t !! "constituency" = Some (constituency_text t)
  ∧ make_member t !! "province" = Some (province_text t)
  ∧ make_member t !! "imgURL" = Some (baseURL +:+ img_src t)
  ∧ make_member t !! "memberURL" = Some (baseURL +:+ href t).
Proof. unfold make_member. by simplify_map_eq. Qed.

Lemma scrape_fmap (tiles : list tile) : scrape tiles = make_member <$> tiles.
Proof.
  unfold scrape.
  enough (∀ acc, foldl (λ members t, members ++ [make_member t]) acc tiles
                 = acc ++ (make_member <$> tiles)) as H by apply (H []).
  induction tiles as [|t tiles IH]; intros acc; simpl.
  - by rewrite app_nil_r.
  - rewrite IH. by rewrite <- app_assoc.
Qed.

(** X11: a tile whose link ends in [(id)] becomes a record whose
    worksheet row is the ID, the four texts, a blank image cell and the two
    absolute URLs. *)
Theorem scraped_member_row (t : tile) (path id : string) :
  "("%char ∉ String.list_ascii_of_string path →
  href t = path +:+ String "(" (id +:+ ")") →
  member_row (make_member t)
  = Ok [id; name_text t; party_text t; constituency_text t; province_text t;
        ""; baseURL +:+ img_src t; baseURL +:+ href t].
Proof.
  intros Hpath Hhref.
  destruct (make_member_fields t) as (HID & Hn & Hp & Hc & Hpr & Hi & Hm).
  assert (extract_id (baseURL +:+ href t) = id) as Hid.
  { rewrite Hhref, <- append_assoc.
    apply (extract_id_bracket (baseURL +:+ path) id ")").
    - intros Hin.
      apply (chars_bytes _ _ "("%char) in Hin; [|left].
      rewrite bytes_app in Hin. apply elem_of_app in Hin as [Hin|Hin]; [|done].
      revert Hin. apply (bool_decide_unpack _). vm_compute. reflexivity.
    - split; [reflexivity|]. eexists _, _. split; reflexivity. }
  rewrite Hid in HID. unfold member_row.
  by rewrite (getitem_Some _ _ _ HID), (getitem_Some _ _ _ Hn),
    (getitem_Some _ _ _ Hp), (getitem_Some _ _ _ Hc),
    (getitem_Some _ _ _ Hpr), (getitem_Some _ _ _ Hi),
    (getitem_Some _ _ _ Hm), !bind_Ok.
Qed.

Lemma scraped_member_row_witness :
  ("("%char ∉ String.list_ascii_of_string "/Members/en/ziad-aboultaif")
  ∧ href example_tile
    = "/Members/en/ziad-aboultaif" +:+ String "(" ("89156" +:+ ")")
  ∧ member_row (make_member example_tile)
    = Ok ["89156"; name_text example_tile; party_text example_tile;
          constituency_text example_tile; province_text example_tile;
          ""; baseURL +:+ img_src example_tile;
          baseURL +:+ href example_tile].
Proof.
  assert ("("%char ∉ String.list_ascii_of_string "/Members/en/ziad-aboultaif")
    as Hpath.
  { apply (bool_decide_unpack _). vm_compute. reflexivity. }
  assert (href example_tile
          = "/Members/en/ziad-aboultaif" +:+ String "(" ("89156" +:+ ")"))
    as Hhref by reflexivity.
  split_and!; [exact Hpath|exact Hhref|].
  exact (scraped_member_row example_tile "/Members/en/ziad-aboultaif" "89156"
           Hpath Hhref).
Defined.

(** X12: [member_row] returns a row exactly when the record has all seven
    fields; the row then has one cell per header, with the image cell
    blank. *)
Theorem member_row_ok (member : record) :
  ((∃ row, member_row member = Ok row)
   ↔ Forall (λ key, has_field key member)
       ["ID"; "fullname"; "party"; "constituency"; "province"; "imgURL";
        "memberURL"])
  ∧ ∀ row, member_row member = Ok row →
      length row = length headers ∧ row !! 5 = Some "".
Proof.
  unfold member_row, getitem, has_field. split; [split|].
  - intros [row Hrow].
    destruct (member !! "ID") eqn:?; [|done].
    destruct (member !! "fullname") eqn:?; [|done].
    destruct (member !! "party") eqn:?; [|done].
    destruct (member !! "constituency") eqn:?; [|done].
    destruct (member !! "province") eqn:?; [|done].
    destruct (member !! "imgURL") eqn:?; [|done].
    destruct (member !! "memberURL") eqn:?; [|done].
    repeat (apply Forall_cons_2; [by eexists|]). apply Forall_nil_2.
  - intros H. repeat (apply Forall_cons in H as [[? ->] H]). by eexists.
  - intros row.
    destruct (member !! "ID"); [|done].
    destruct (member !! "fullname"); [|done].
    destruct (member !! "party"); [|done].
    destruct (member !! "constituency"); [|done].
    destruct (member !! "province"); [|done].
    destruct (member !! "imgURL"); [|done].
    destruct (member !! "memberURL"); [|done].
    by intros [= <-].
Qed.

Lemma column_width_fold (column : list string) (m : nat) :
  (m ≤ foldl (λ max_width value,
         if max_width <? len value then len value
         else max_width) m column)
  ∧ (∀ value, value ∈ column →
       len value
       ≤ foldl (λ max_width value,
           if max_width <? len value then len value
           else max_width) m column)
  ∧ (foldl (λ max_width value,
         if max_width <? len value then len value
         else max_width) m column = m
     ∨ ∃ value, value ∈ column
         ∧ foldl (λ max_width value,
             if max_width <? len value then len value
             else max_width) m column = len value).
Proof.
  revert m. induction column as [|v column IH]; intros m; simpl.
  - split_and!; [done| |by left]. by intros v Hv%elem_of_nil.
  - destruct (IH (if m <? len v then len v else m))
      as (Hle & Hfit & Htight).
    destruct (Nat.ltb_spec m (len v)) as [Hlt|Hge].
    + split_and!; [lia| |].
      * intros v' [->|Hin]%elem_of_cons; [done|by apply Hfit].
      * right. destruct Htight as [->|(v' & Hin & ->)].
        -- exists v. split; [left|done].
        -- exists v'. split; [by right|done].
    + split_and!; [done| |].
      * intros v' [->|Hin]%elem_of_cons; [lia|by apply Hfit].
      * destruct Htight as [->|(v' & Hin & ->)]; [by left|right].
        exists v'. split; [by right|done].
Qed.

(** X13: the width given to a column is one more than the length of its
    longest cell value, counted in characters as [len] does: every value
    is shorter than the width, and the width is 1 or one more than the
    length of some value. *)
Theorem column_width_fits (column : list string) :
  (∀ value, value ∈ column → len value < column_width column)
  ∧ (column_width column = 1
     ∨ ∃ value, value ∈ column
         ∧ column_width column = len value + 1).
Proof.
  unfold column_width.
  destruct (column_width_fold column 0) as (_ & Hfit & Htight). split.
  - intros v Hv%Hfit. lia.
  - destruct Htight as [->|(v & Hin & ->)]; [by left|right]. by exists v.
Qed.

(** * The script: image files and image rows *)

Lemma bytes_replace (old new : Ascii.ascii) (s : string) :
  String.list_ascii_of_string (replace old new s)
  = (λ a, if decide (a = old) then new else a)
    <$> String.list_ascii_of_string s.
Proof. induction s as [|a s IH]; simpl; [done|]. by rewrite IH. Qed.

Lemma bytes_inj (s t : string) :
  String.list_ascii_of_string s = String.list_ascii_of_string t → s = t.
Proof.
  intros H. rewrite <- (String.string_of_list_ascii_of_string s),
    <- (String.string_of_list_ascii_of_string t). by rewrite H.
Qed.

(** X14: the name of an image file never contains a space. *)
Theorem img_file_no_space (member : record) (imgFile : string) :
  img_file member = Ok imgFile →
  " "%char ∉ String.list_ascii_of_string imgFile.
Proof.
  unfold img_file, getitem. destruct (member !! "fullname") as [name|]; [|done].
  intros [= <-]. rewrite bytes_app, bytes_replace.
  apply not_elem_of_app. split.
  - intros (a & Ha & _)%list_elem_of_fmap.
    destruct (decide (a = " "%char)); [done|]. by subst.
  - apply (bool_decide_unpack _). vm_compute. reflexivity.
Qed.

Lemma img_file_no_space_witness :
  img_file (make_member example_tile) = Ok "Ziad-Aboultaif.jpg"
  ∧ " "%char ∉ String.list_ascii_of_string "Ziad-Aboultaif.jpg".
Proof.
  assert (img_file (make_member example_tile) = Ok "Ziad-Aboultaif.jpg")
    as Himg by (vm_compute; reflexivity).
  split; [exact Himg|].
  exact (img_file_no_space (make_member example_tile) "Ziad-Aboultaif.jpg"
           Himg).
Defined.

(** X15: two members whose names contain no hyphen get the same image file
    only if they have the same name.  (With hyphens they can collide, as
    [img_file_collision] shows, and the later download overwrites the
    earlier one.) *)
Theorem img_file_injective (member member' : record) (name name' : string) :
  member !! "fullname" = Some name →
  member' !! "fullname" = Some name' →
  "-"%char ∉ String.list_ascii_of_string name →
  "-"%char ∉ String.list_ascii_of_string name' →
  img_file member = img_file member' →
  name = name'.
Proof.
  intros Hn Hn' Hh Hh'. unfold img_file.
  rewrite (getitem_Some _ _ _ Hn), (getitem_Some _ _ _ Hn'), !bind_Ok.
  intros [= Heq]. apply (f_equal String.list_ascii_of_string) in Heq.
  rewrite !bytes_app in Heq. apply app_inv_tail in Heq.
  rewrite !bytes_replace in Heq. apply bytes_inj.
  revert Hh Hh' Heq.
  generalize (String.list_ascii_of_string name).
  generalize (String.list_ascii_of_string name').
  intros l' l. revert l'.
  induction l as [|a l IH]; intros [|a' l']; csimpl; try done.
  intros [Ha Hl]%not_elem_of_cons [Ha' Hl']%not_elem_of_cons [= Hhd Htl].
  f_equal; [|by apply IH].
  destruct (decide (a = " "%char)), (decide (a' = " "%char)); congruence.
Qed.

Lemma img_file_injective_witness :
  ({["fullname" := "Ziad Aboultaif"]} : gmap string string) !! "fullname"
  = Some "Ziad Aboultaif"
  ∧ make_member example_tile !! "fullname" = Some "Ziad Aboultaif"
  ∧ ("-"%char ∉ String.list_ascii_of_string "Ziad Aboultaif")
  ∧ img_file {["fullname" := "Ziad Aboultaif"]}
    = img_file (make_member example_tile)
  ∧ "Ziad Aboultaif" = "Ziad Aboultaif".
Proof.
  assert (({["fullname" := "Ziad Aboultaif"]} : gmap string string)
            !! "fullname" = Some "Ziad Aboultaif") as H1 by reflexivity.
  assert (make_member example_tile !! "fullname" = Some "Ziad Aboultaif")
    as H2 by reflexivity.
  assert ("-"%char ∉ String.list_ascii_of_string "Ziad Aboultaif") as H3.
  { apply (bool_decide_unpack _). vm_compute. reflexivity. }
  assert (img_file {["fullname" := "Ziad Aboultaif"]}
          = img_file (make_member example_tile)) as H4
    by (vm_compute; reflexivity).
  split_and!; [exact H1|exact H2|exact H3|exact H4|].
  exact (img_file_injective _ _ _ _ H1 H2 H3 H3 H4).
Defined.

Example img_file_collision :
  img_file {["fullname" := "Anne Marie Roy"]}
  = img_file {["fullname" := "Anne-Marie Roy"]}.
Proof. vm_compute. reflexivity. Qed.

Lemma index_first {A : Type} `{EqDecision A} (x : A) (l : list A) (i : nat) :
  l !! i = Some x →
  ∃ j, index x l = Some j ∧ j ≤ i ∧ l !! j = Some x
       ∧ ∀ k, k < j → l !! k ≠ Some x.
Proof.
  revert i. induction l as [|y l IH]; intros i Hi; [done|].
  simpl. destruct (decide (y = x)) as [->|Hne].
  - exists 0. split_and!; [done|lia|done|]. intros k Hk. lia.
  - destruct i as [|i]; [by injection Hi|].
    destruct (IH i Hi) as (j & -> & Hle & Hj & Hmin).
    exists (S j). split_and!; [done|lia|done|].
    intros [|k] Hk; simpl; [congruence|]. apply Hmin. lia.
Qed.

(** X16: for the member at position [i] of the list, [members.index] never
    fails and [rowNum] is at most [i + 2]: it is the row of the first
    record equal to that member, so it is the member's own row, [i + 2],
    when no record occurs twice. *)
Theorem row_num_first (members : list record) (i : nat) (member : record) :
  members !! i = Some member →
  ∃ j, row_num member members = Some (j + 2)
    ∧ j ≤ i ∧ members !! j = Some member
    ∧ (NoDup members → j = i).
Proof.
  intros Hi. destruct (index_first member members i Hi)
    as (j & Hj & Hle & Hlook & _).
  exists j. unfold row_num. rewrite Hj. split_and!; [done..|].
  intros Hnd. by eapply NoDup_lookup.
Qed.

Lemma row_num_first_witness :
  example_members !! 1 = Some (member "A" "ON")
  ∧ ∃ j, row_num (member "A" "ON") example_members = Some (j + 2)
      ∧ j ≤ 1 ∧ example_members !! j = Some (member "A" "ON")
      ∧ (NoDup example_members → j = 1).
Proof.
  assert (example_members !! 1 = Some (member "A" "ON")) as Hi by reflexivity.
  split; [exact Hi|].
  exact (row_num_first example_members 1 (member "A" "ON") Hi).
Defined.

Example row_num_duplicate :
  row_num (member "A" "ON") example_members = Some 2.
Proof. vm_compute. reflexivity. Qed.

(** * The script: the report on scraped members *)

Lemma scrape_has_field (tiles : list tile) (key : string) :
  key ∈ ["ID"; "fullname"; "party"; "constituency"; "province"; "imgURL";
         "memberURL"] →
  Forall (has_field key) (scrape tiles).
Proof.
  intros Hkey. rewrite scrape_fmap. apply Forall_fmap, Forall_forall.
  intros t _. unfold has_field. simpl.
  destruct (make_member_fields t) as (HID & Hn & Hp & Hc & Hpr & Hi & Hm).
  repeat (apply elem_of_cons in Hkey as [->|Hkey]; [by eexists|]).
  by apply elem_of_nil in Hkey.
Qed.

Lemma occurrences_scrape (key : string) (text : tile → string)
    (tiles : list tile) (v : string) :
  (∀ t, make_member t !! key = Some (text t)) →
  occurrences key v (scrape tiles)
  = length (filter (λ t, text t = v) tiles).
Proof.
  intros Hkey. rewrite scrape_fmap.
  induction tiles as [|t tiles IH]; [done|].
  rewrite fmap_cons, occurrences_cons, filter_cons, Hkey, IH.
  destruct (decide (text t = v)) as [->|Hne].
  - by rewrite decide_True.
  - rewrite decide_False by congruence. done.
Qed.

Lemma count_member_total (key : string) (dict_list : list record)
    (sort_keys : bool) (results : pydict nat) :
  Forall (has_field key) dict_list →
  count_member key dict_list sort_keys = Ok results →
  sum_list (values results) = length dict_list.
Proof.
  intros Hall.
  destruct (count_member_table key dict_list Hall)
    as (uvs & Hasc & Hobs & Heq).
  rewrite Heq. intros [= <-].
  assert (sum_list (values ((λ uv, (uv, occurrences key uv dict_list)) <$> uvs))
          = length dict_list) as Hsum.
  { rewrite values_tabulate. apply sum_occurrences; [|by intros v ?%Hobs|done].
    by apply ascending_NoDup. }
  destruct sort_keys; [done|].
  rewrite <- Hsum. unfold values. by rewrite sorted_by_count_desc_perm.
Qed.

(** X17: on scraped members none of the four helper calls of the report
    raises [KeyError]; the party counts and the province counts each add up
    to the number of tiles, and a party or province is listed with the
    number of tiles that carry its text. *)
Theorem report_on_scraped (memberContainers : list tile) :
  ∃ partyCount provinceCount provincePartyCount partyProvinceCount,
    report_tables (scrape memberContainers)
    = Ok (partyCount, provinceCount, provincePartyCount, partyProvinceCount)
    ∧ sum_list (values partyCount) = length memberContainers
    ∧ sum_list (values provinceCount) = length memberContainers
    ∧ (∀ party n, (party, n) ∈ partyCount
         ↔ 0 < n
           ∧ n = length (filter (λ t, party_text t = party) memberContainers))
    ∧ (∀ province n, (province, n) ∈ provinceCount
         ↔ 0 < n
           ∧ n = length (filter (λ t, province_text t = province)
                           memberContainers)).
Proof.
  assert (Forall (has_field "party") (scrape memberContainers)) as Hparty.
  { apply scrape_has_field. set_solver. }
  assert (Forall (has_field "province") (scrape memberContainers)) as Hprov.
  { apply scrape_has_field. set_solver. }
  destruct (count_member_pairs "party" _ false Hparty)
    as (pc & Hpc & _ & Hpairs & Hpos).
  destruct (count_member_pairs "province" _ true Hprov)
    as (prc & Hprc & _ & Hpairs' & Hpos').
  destruct (cross_count_member_table "province" "party" _ false Hprov Hparty)
    as (? & ? & _ & _ & _ & _ & Hppc).
  destruct (cross_distinct_key_table "party" "province" _ Hparty Hprov)
    as (? & _ & _ & Hppl).
  eexists pc, prc, _, _. unfold report_tables.
  rewrite Hpc, Hprc, Hppc, Hppl, !bind_Ok.
  assert (length (scrape memberContainers) = length memberContainers) as Hlen.
  { by rewrite scrape_fmap, length_fmap. }
  split_and!; [done| | | |].
  - by rewrite (count_member_total _ _ _ _ Hparty Hpc).
  - by rewrite (count_member_total _ _ _ _ Hprov Hprc).
  - intros party n. rewrite Hpairs.
    rewrite (occurrences_scrape "party" party_text)
      by (intros t; apply make_member_fields).
    rewrite occurrences_pos.
    rewrite (occurrences_scrape "party" party_text)
      by (intros t; apply make_member_fields).
    split; [by intros [? ->]|]. by intros [? ->].
  - intros province n. rewrite Hpairs'.
    rewrite (occurrences_scrape "province" province_text)
      by (intros t; apply make_member_fields).
    rewrite occurrences_pos.
    rewrite (occurrences_scrape "province" province_text)
      by (intros t; apply make_member_fields).
    split; [by intros [? ->]|]. by intros [? ->].
Qed.

Lemma make_member_href (t t' : tile) :
  make_member t = make_member t' → href t = href t'.
Proof.
  intros Heq.
  destruct (make_member_fields t) as (_ & _ & _ & _ & _ & _ & Hm).
  destruct (make_member_fields t') as (_ & _ & _ & _ & _ & _ & Hm').
  rewrite Heq, Hm' in Hm. clear Heq Hm'.
  apply (inj Some) in Hm. symmetry. revert Hm. generalize baseURL.
  intros b. induction b as [|a b IH]; [done|].
  intros Hb. apply IH. by injection Hb.
Qed.

(** X18: when no two tiles share a link, the image of the member scraped
    from the tile at position [i] is anchored in that member's own
    worksheet row, [i + 2]. *)
Theorem row_num_scraped (memberContainers : list tile) (i : nat) (t : tile) :
  NoDup (href <$> memberContainers) →
  memberContainers !! i = Some t →
  row_num (make_member t) (scrape memberContainers) = Some (i + 2).
Proof.
  intros Hnd Hi. rewrite scrape_fmap.
  pose proof (list_lookup_fmap_Some_2 make_member _ _ _ Hi) as Hi'.
  destruct (index_first _ _ _ Hi') as (j & Hj & _ & Hlook & _).
  unfold row_num. rewrite Hj. clear Hj Hi'.
  apply list_lookup_fmap_Some_1 in Hlook as (t' & Heq & Hj).
  apply make_member_href in Heq.
  assert (j = i) as ->; [|done].
  apply (NoDup_lookup (href <$> memberContainers) j i (href t) Hnd).
  - by rewrite list_lookup_fmap, Hj, Heq.
  - by rewrite list_lookup_fmap, Hi.
Qed.

Lemma row_num_scraped_witness :
  NoDup (href <$> [example_tile; example_tile2])
  ∧ [example_tile; example_tile2] !! 1 = Some example_tile2
  ∧ row_num (make_member example_tile2)
      (scrape [example_tile; example_tile2]) = Some (1 + 2).
Proof.
  assert (NoDup (href <$> [example_tile; example_tile2])) as Hnd.
  { apply (bool_decide_unpack _). vm_compute. reflexivity. }
  assert ([example_tile; example_tile2] !! 1 = Some example_tile2) as Hi
    by reflexivity.
  split_and!; [exact Hnd|exact Hi|].
  exact (row_num_scraped [example_tile; example_tile2] 1 example_tile2 Hnd Hi).
Defined.
